(** * Taxonomy graphs: depth resolver, path enumerator, path formatter

    A shallow embedding of the algorithmic core of the ESCO scripts

      - [scripts/esco/add_skill_levels.py]
          ([build_parent_map], [calculate_depth], the query loop and the
          level distribution of [add_level_column]);
      - [scripts/esco/map_skill_hierarchy_paths.py]
          ([load_hierarchy], [load_labels], [get_all_paths], and of
          [map_skill_hierarchies] the label lookup, the path string, the
          rows made for the paths of a skill, [get_level_num] and the order
          of the hierarchy columns).

    Reading the files and the tables of pandas are not modelled: a file is
    the list of its rows, a row of the skills table is a dictionary from
    column names to text.

    Python dictionaries are [gmap]s, Python sets are [gset]s, Python
    integers are [Z].  A Python set has no specified iteration order, so
    every loop over a set takes the order from a parameter [iter], which
    may order the set of each key in its own way; the mutable objects the functions share (the memo table, the
    recursion-path set, the visited sets of the path enumerator) are threaded
    through explicitly. *)

From Stdlib Require Import ZArith Lia DecimalString DecimalNat.
From stdpp Require Import gmap strings list fin_maps sorting.

Local Open Scope Z_scope.
Set Warnings "-clear-no-such-hyp".

(** ** Outcomes of a Python call

    A call returns a value, raises, or (in the model only) exhausts the
    recursion budget it was given. *)

Inductive exn : Type :=
| KeyError (key : string).

Inductive outcome (A : Type) : Type :=
| Ret (a : A)
| Raise (e : exn)
| OutOfFuel.

Arguments Ret {A} a.
Arguments Raise {A} e.
Arguments OutOfFuel {A}.

#[global] Instance outcome_ret : MRet outcome := @Ret.
#[global] Instance outcome_bind : MBind outcome := λ A B f m,
  match m with
  | Ret a => f a
  | Raise e => Raise e
  | OutOfFuel => OutOfFuel
  end.

#[global] Instance exn_eq_dec : EqDecision exn.
Proof. solve_decision. Defined.

#[global] Instance outcome_eq_dec {A} `{EqDecision A} : EqDecision (outcome A).
Proof. solve_decision. Defined.

(** ** Edge index of the depth resolver *)

Module Depth.

(** [parent_map = defaultdict(set)]; [parent_map[child_id].add(parent_id)]
    for every row of the hierarchy file. *)
Definition add_edge (parent_map : gmap string (gset string))
    (row : string * string) : gmap string (gset string) :=
  let child_id := row.1 in
  let parent_id := row.2 in
  <[child_id := {[parent_id]} ∪ default ∅ (parent_map !! child_id)]> parent_map.

Definition build_parent_map (rows : list (string * string))
  : gmap string (gset string) :=
  foldl add_edge ∅ rows.

(** The state [calculate_depth] works on: the memo table and the
    recursion-path set are objects shared by all recursive calls, and
    [stdout] collects what [print] wrote. *)
Record state : Type := State {
  memo : gmap string Z;
  visited : gset string;
  stdout : list string
}.

Definition set_memo (k : string) (d : Z) (s : state) : state :=
  State (<[k := d]> (memo s)) (visited s) (stdout s).

Definition print (line : string) (s : state) : state :=
  State (memo s) (visited s) (stdout s ++ [line]).

Definition visited_add (k : string) (s : state) : state :=
  State (memo s) ({[k]} ∪ visited s) (stdout s).

(** [set.remove] raises [KeyError] on a missing element. *)
Definition visited_remove (k : string) (s : state) : outcome state :=
  if decide (k ∈ visited s)
  then Ret (State (memo s) (visited s ∖ {[k]}) (stdout s))
  else Raise (KeyError k).

Section resolver.
(** [iter k ps] is the order in which Python enumerates [ps], the set
    object stored under the key [k]. *)
Context (iter : string → gset string → list string).
Context (parent_map : gmap string (gset string)).

(** The [for parent_id in parent_map[skill_id]] loop, with [call] the
    recursive call. *)
Fixpoint max_over (call : string → state → outcome (Z * state))
    (parent_ids : list string) (max_parent_depth : Z) (s : state)
  : outcome (Z * state) :=
  match parent_ids with
  | [] => Ret (max_parent_depth, s)
  | parent_id :: rest =>
      '(parent_depth, s') ← call parent_id s;
      max_over call rest (Z.max max_parent_depth parent_depth) s'
  end.

Fixpoint calculate_depth (fuel : nat) (skill_id : string) (s : state)
  : outcome (Z * state) :=
  match fuel with
  | O => OutOfFuel
  | S fuel' =>
      match memo s !! skill_id with
      | Some d => Ret (d, s)
      | None =>
          if decide (skill_id ∈ visited s) then
            Ret (1, print ("Warning: Cycle detected at " +:+ skill_id) s)
          else
            match parent_map !! skill_id with
            | None => Ret (1, set_memo skill_id 1 s)
            | Some parents =>
                if decide (parents = ∅) then Ret (1, set_memo skill_id 1 s)
                else
                  let s1 := visited_add skill_id s in
                  '(max_parent_depth, s2) ←
                    max_over (calculate_depth fuel') (iter skill_id parents) 0 s1;
                  s3 ← visited_remove skill_id s2;
                  let depth := max_parent_depth + 1 in
                  Ret (depth, set_memo skill_id depth s3)
            end
      end
  end.

(** One query of [add_level_column]: the memo table is the run's, the
    recursion-path set is a new [set()].  The recursion never gets deeper
    than the number of keys of [parent_map] plus one (see
    [calculate_depth_returns]). *)
Definition query (skill_id : string) (depth_memo : gmap string Z)
    (out : list string) : outcome (Z * state) :=
  calculate_depth (S (size parent_map)) skill_id (State depth_memo ∅ out).

(** The loop of [add_level_column] over the rows of the skills file; the
    levels are returned in row order. *)
Fixpoint add_level_column (ids : list string) (depth_memo : gmap string Z)
    (out : list string) : outcome (list Z * gmap string Z * list string) :=
  match ids with
  | [] => Ret ([], depth_memo, out)
  | skill_id :: rest =>
      '(depth, s) ← query skill_id depth_memo out;
      '(levels, depth_memo', out') ← add_level_column rest (memo s) (stdout s);
      Ret (depth :: levels, depth_memo', out')
  end.
End resolver.

(** [depth(node)] on a run that has resolved nothing yet: the first query
    of [add_level_column]. *)
Definition depth (iter : string → gset string → list string)
    (parent_map : gmap string (gset string)) (skill_id : string) : Z :=
  match query iter parent_map skill_id ∅ [] with
  | Ret (d, _) => d
  | _ => 0
  end.

(** The recorded parents of a node; none for a node without an entry. *)
Definition parents (parent_map : gmap string (gset string))
    (skill_id : string) : gset string :=
  default ∅ (parent_map !! skill_id).

(** An enumeration order lists exactly the elements of each set. *)
Definition enumerates (iter : string → gset string → list string) : Prop :=
  ∀ k s, iter k s ≡ₚ elements s.

(** The edge index is acyclic when every edge goes down some rank. *)
Definition acyclic_by (rank : string → nat)
    (parent_map : gmap string (gset string)) : Prop :=
  map_Forall (λ child ps, set_Forall (λ p, (rank p < rank child)%nat) ps)
    parent_map.

(** The level of a node as the comments of [add_skill_levels.py] define it
    ("Root nodes (no parents) = Level 1", "LEVEL = max(parent_levels) + 1"),
    unfolded [k] times; the reference the resolver is compared with. *)
Fixpoint level (parent_map : gmap string (gset string)) (k : nat)
    (skill_id : string) : Z :=
  match k with
  | O => 1
  | S k' =>
      let ps := parents parent_map skill_id in
      if decide (ps = ∅) then 1
      else foldr Z.max 0 (level parent_map k' <$> elements ps) + 1
  end.

(** In an index whose edges go down [rank], [rank n] unfoldings past the
    node itself reach every ancestor of [n]. *)
Definition lvl (parent_map : gmap string (gset string)) (rank : string → nat)
    (skill_id : string) : Z :=
  level parent_map (S (rank skill_id)) skill_id.

(** Every memoised value is the level of its node. *)
Definition memo_sound (lvl : string → Z) (m : gmap string Z) : Prop :=
  ∀ k d, m !! k = Some d → d = lvl k.

End Depth.

(** ** Path enumerator *)

Module Paths.

(** [child_to_parents = defaultdict(list)];
    [child_to_parents[child_id].append(parent_id)] for every row. *)
Definition add_edge (child_to_parents : gmap string (list string))
    (row : string * string) : gmap string (list string) :=
  let child_id := row.1 in
  let parent_id := row.2 in
  <[child_id := default [] (child_to_parents !! child_id) ++ [parent_id]]>
    child_to_parents.

Definition load_hierarchy (rows : list (string * string))
  : gmap string (list string) :=
  foldl add_edge ∅ rows.

(** The [visited] sets are mutable objects: [get_all_paths] adds to the set
    it was handed, and hands each recursive call a copy.  They live in a
    store of set objects, and a variable holds a reference into it. *)
Definition ref : Type := nat.

Definition set_new (h : gmap ref (gset string)) : ref * gmap ref (gset string) :=
  let r := fresh (dom h) in (r, <[r := ∅]> h).

Definition set_copy (v : ref) (h : gmap ref (gset string))
  : ref * gmap ref (gset string) :=
  let r := fresh (dom h) in (r, <[r := h !!! v]> h).

Definition set_add (v : ref) (x : string) (h : gmap ref (gset string))
  : gmap ref (gset string) :=
  <[v := {[x]} ∪ h !!! v]> h.

Section enumerator.
Context (child_to_parents : gmap string (list string)).

(** The [for parent_id in child_to_parents[skill_id]] loop, with [call] the
    recursive call. *)
Fixpoint extend_all
    (call : string → list string → ref → gmap ref (gset string) →
            outcome (list (list string) * gmap ref (gset string)))
    (parent_ids : list string) (current_path : list string) (visited : ref)
    (all_paths : list (list string)) (h : gmap ref (gset string))
  : outcome (list (list string) * gmap ref (gset string)) :=
  match parent_ids with
  | [] => Ret (all_paths, h)
  | parent_id :: rest =>
      let '(copy, h1) := set_copy visited h in
      '(parent_paths, h2) ← call parent_id (current_path ++ [parent_id]) copy h1;
      extend_all call rest current_path visited (all_paths ++ parent_paths) h2
  end.

Fixpoint get_all_paths (fuel : nat) (skill_id : string)
    (current_path : option (list string)) (visited : option ref)
    (h : gmap ref (gset string))
  : outcome (list (list string) * gmap ref (gset string)) :=
  match fuel with
  | O => OutOfFuel
  | S fuel' =>
      let current_path := default [skill_id] current_path in
      let '(visited, h) :=
        match visited with
        | Some v => (v, h)
        | None => set_new h
        end in
      if decide (skill_id ∈ h !!! visited) then Ret ([current_path], h)
      else
        match child_to_parents !! skill_id with
        | None => Ret ([current_path], h)
        | Some parent_ids =>
            if decide (parent_ids = []) then Ret ([current_path], h)
            else
              let h := set_add visited skill_id h in
              extend_all
                (λ p cp v, get_all_paths fuel' p (Some cp) (Some v))
                parent_ids current_path visited [] h
        end
  end.

(** [paths = get_all_paths(skill_id, child_to_parents)] as
    [map_skill_hierarchies] calls it.  The recursion never gets deeper than
    the number of keys of [child_to_parents] plus one. *)
Definition paths (skill_id : string) : outcome (list (list string)) :=
  '(all_paths, _) ← get_all_paths (S (size child_to_parents)) skill_id None None ∅;
  Ret all_paths.

(** The enumeration in the words of the specification: the visited set is
    an immutable value handed down each branch, and the results of the
    branches are concatenated. *)
Fixpoint paths_spec (fuel : nat) (skill_id : string)
    (current_path : list string) (visited : gset string)
  : list (list string) :=
  match fuel with
  | O => []
  | S fuel' =>
      if decide (skill_id ∈ visited) then [current_path]
      else
        match child_to_parents !! skill_id with
        | None => [current_path]
        | Some parent_ids =>
            if decide (parent_ids = []) then [current_path]
            else
              p ← parent_ids;
              paths_spec fuel' p (current_path ++ [p]) ({[skill_id]} ∪ visited)
        end
  end.

(** A node has no recorded parents: no entry, or an empty one. *)
Definition no_parents (skill_id : string) : Prop :=
  default [] (child_to_parents !! skill_id) = [].
End enumerator.

(** *** Labels and the path string *)

(** [labels.get(node_id, node_id)]. *)
Definition label (labels : gmap string string) (node_id : string) : string :=
  default node_id (labels !! node_id).

(** [" ; ".join(path_labels)] with
    [path_labels = [labels.get(node_id, node_id) for node_id in path]];
    [str.join] is the Standard Library's [String.concat].  The
    specification calls this [format_path]. *)
Definition hierarchy_path (labels : gmap string string) (path : list string)
  : string :=
  let path_labels := label labels <$> path in
  String.concat " ; " path_labels.

End Paths.

(** ** Scenarios *)

Module Scenario.

Definition diamond : list (string * string) :=
  [("B", "A"); ("C", "A"); ("D", "B"); ("D", "C")]%string.

Definition diamond_rank (n : string) : nat :=
  if decide (n = "D"%string) then 2%nat
  else if decide (n = "A"%string) then 0%nat else 1%nat.

Definition cycle : list (string * string) :=
  [("X", "Y"); ("Y", "X")]%string.

(** A cycle between [B] and [C] under a node that has both as parents. *)
Definition tangle : list (string * string) :=
  [("A", "B"); ("A", "C"); ("B", "C"); ("C", "B"); ("C", "D"); ("D", "E")]%string.

(** Two enumeration orders: the one of [elements], and its reverse. *)
Definition ascending : string → gset string → list string :=
  λ _ ps, elements ps.

Definition descending : string → gset string → list string :=
  λ _ ps, reverse (elements ps).

Definition twice : list (string * string) :=
  [("B", "A"); ("B", "A")]%string.

Definition once : list (string * string) :=
  [("B", "A")]%string.

End Scenario.

(** ** Upward chains *)

Module Chains.

(** [b] is recorded as a parent of [a]. *)
Definition edge (child_to_parents : gmap string (list string))
    (a b : string) : Prop :=
  b ∈ default [] (child_to_parents !! a).

(** Each element of the path is followed by one of its parents. *)
Fixpoint follows_edges (child_to_parents : gmap string (list string))
    (path : list string) : Prop :=
  match path with
  | a :: rest =>
      match rest with
      | b :: _ => edge child_to_parents a b ∧ follows_edges child_to_parents rest
      | [] => True
      end
  | [] => True
  end.

(** An upward chain from [skill_id]: it starts at the node, climbs recorded
    edges through distinct nodes, and ends at the first node that has no
    recorded parents or that the chain already went through. *)
Definition upward_chain (child_to_parents : gmap string (list string))
    (skill_id : string) (path : list string) : Prop :=
  ∃ init l,
    path = init ++ [l]
    ∧ head path = Some skill_id
    ∧ NoDup init
    ∧ follows_edges child_to_parents path
    ∧ (l ∈ init ∨ Paths.no_parents child_to_parents l).

End Chains.

(** ** The level distribution of [add_level_column] *)

Module Statistics.

(** [level_counts[depth] += 1] on a [defaultdict(int)]. *)
Definition count_level (level_counts : gmap Z nat) (depth : Z) : gmap Z nat :=
  <[depth := S (default 0%nat (level_counts !! depth))]> level_counts.

(** [for depth in depth_memo.values(): level_counts[depth] += 1], on the
    values in the order the dictionary yields them. *)
Definition level_counts (depths : list Z) : gmap Z nat :=
  foldl count_level ∅ depths.

(** The number of nodes the distribution counts in all. *)
Definition total (level_counts : gmap Z nat) : nat :=
  map_fold (λ _ count sum, (count + sum)%nat) 0%nat level_counts.

End Statistics.

(** ** The output table of [map_skill_hierarchies] *)

Module Table.

(** [labels = {}], then [labels[row['ID']] = row['PREFERREDLABEL']] for the
    rows of the skills file and after them for the rows of the skill groups
    file.  A row is given by its two cells. *)
Definition load_labels (skills skillgroups : list (string * string))
  : gmap string string :=
  let labels := foldl (λ labels row, <[row.1 := row.2]> labels) ∅ skills in
  foldl (λ labels row, <[row.1 := row.2]> labels) labels skillgroups.

(** [str(n)] for an [int] that is not negative. *)
Definition str (n : nat) : string :=
  NilEmpty.string_of_uint (Nat.to_uint n).

(** [f"{level}_level{'s' if level > 1 else ''}_up"]. *)
Definition level_name (level : nat) : string :=
  str level +:+ "_level" +:+ (if decide (1 < level)%nat then "s" else "")
  +:+ "_up".

(** One turn of [for level in range(1, len(path))]: [path[level]] raises
    [IndexError] out of range ([None] here), the two assignments add or
    overwrite a column each. *)
Definition add_level (labels : gmap string string) (path : list string)
    (row : option (gmap string string)) (level : nat)
  : option (gmap string string) :=
  row ← row;
  parent_id ← path !! level;
  let level_name := level_name level in
  let row := <[level_name := parent_id]> row in
  Some (<[level_name +:+ "_preferredlabel" := default "" (labels !! parent_id)]> row).

(** The row made for one path: [row = skill_row.to_dict()], the level
    columns, then [row['hierarchy_path']].  Cells are text. *)
Definition path_row (labels : gmap string string)
    (skill_row : gmap string string) (path : list string)
  : option (gmap string string) :=
  row ← foldl (add_level labels path) (Some skill_row)
        (seq 1 (length path - 1));
  Some (<["hierarchy_path" := Paths.hierarchy_path labels path]> row).

(** [\d] on ASCII text. *)
Definition is_digit (a : Ascii.ascii) : bool :=
  (48 <=? Ascii.nat_of_ascii a)%nat && (Ascii.nat_of_ascii a <=? 57)%nat.

(** The longest run of digits a string starts with, and what follows it. *)
Fixpoint digits (s : string) : string * string :=
  match s with
  | String a s' =>
      if is_digit a then (String a (digits s').1, (digits s').2)
      else (EmptyString, s)
  | EmptyString => (EmptyString, EmptyString)
  end.

(** [int(ds)] for a string of digits. *)
Definition int (ds : string) : nat :=
  match NilEmpty.uint_of_string ds with
  | Some d => Nat.of_uint d
  | None => 0%nat
  end.

(** [match = re.match(r'(\d+)_level', col)];
    [int(match.group(1)) if match else 999].  The pattern matches when the
    column name starts with at least one digit and ["_level"] follows the
    last of the leading digits. *)
Definition get_level_num (col : string) : nat :=
  let '(ds, rest) := digits col in
  if bool_decide (ds ≠ EmptyString) && String.prefix "_level" rest
  then int ds else 999%nat.

(** What can stop the loop over the skills: a Python exception of the
    functions above, [IndexError] from [path[level]], or the recursion
    budget of the model. *)
Inductive failure : Type :=
| Python (e : exn)
| IndexError
| Budget.

(** [for path in paths: ...; output_rows.append(row)]. *)
Fixpoint path_rows (labels skill_row : gmap string string)
    (paths : list (list string)) (output_rows : list (gmap string string))
  : failure + list (gmap string string) :=
  match paths with
  | [] => inr output_rows
  | path :: rest =>
      match path_row labels skill_row path with
      | Some row => path_rows labels skill_row rest (output_rows ++ [row])
      | None => inl IndexError
      end
  end.

(** The body of [for idx, skill_row in skills_df.iterrows()], on the pair
    of [output_rows] and [max_path_length]; [skill_row['ID']] raises
    [KeyError] when the skills table has no such column. *)
Definition process_skill (child_to_parents : gmap string (list string))
    (labels : gmap string string)
    (state : list (gmap string string) * nat)
    (skill_row : gmap string string)
  : failure + (list (gmap string string) * nat) :=
  match skill_row !! "ID"%string with
  | None => inl (Python (KeyError "ID"))
  | Some skill_id =>
      match Paths.paths child_to_parents skill_id with
      | Ret paths =>
          let max_path_length :=
            foldl (λ m path, Nat.max m (length path)) state.2 paths in
          match path_rows labels skill_row paths state.1 with
          | inr output_rows => inr (output_rows, max_path_length)
          | inl e => inl e
          end
      | Raise e => inl (Python e)
      | OutOfFuel => inl Budget
      end
  end.

Fixpoint process_skills (child_to_parents : gmap string (list string))
    (labels : gmap string string) (skills : list (gmap string string))
    (state : list (gmap string string) * nat)
  : failure + (list (gmap string string) * nat) :=
  match skills with
  | [] => inr state
  | skill_row :: rest =>
      match process_skill child_to_parents labels state skill_row with
      | inr state' => process_skills child_to_parents labels rest state'
      | inl e => inl e
      end
  end.

(** [output_rows] and [max_path_length] after the loop. *)
Definition output_rows (child_to_parents : gmap string (list string))
    (labels : gmap string string) (skills : list (gmap string string))
  : failure + (list (gmap string string) * nat) :=
  process_skills child_to_parents labels skills ([], 0%nat).

(** [sub in s]. *)
Fixpoint contains (sub s : string) : bool :=
  String.prefix sub s
  || match s with
     | String _ s' => contains sub s'
     | EmptyString => false
     end.

(** [sorted(cols, key=key)]: ascending in the key, columns of equal key in
    the order they came in. *)
Fixpoint insert_by (key : string → nat) (col : string) (cols : list string)
  : list string :=
  match cols with
  | [] => [col]
  | c :: rest =>
      if decide (key col ≤ key c)%nat then col :: cols
      else c :: insert_by key col rest
  end.

Definition sorted_by (key : string → nat) (cols : list string) : list string :=
  foldr (insert_by key) [] cols.

(** The hierarchy columns in their final order, from the columns of
    [output_df]: the columns with ["_level"] in their name, those without
    and those with ["preferredlabel"] sorted by level number each, then
    taken in pairs. *)
Definition ordered_hierarchy_cols (columns : list string) : list string :=
  let hierarchy_cols := filter (λ col, contains "_level" col) columns in
  let id_cols :=
    sorted_by get_level_num
      (filter (λ col, ¬ contains "preferredlabel" col) hierarchy_cols) in
  let label_cols :=
    sorted_by get_level_num
      (filter (λ col, contains "preferredlabel" col) hierarchy_cols) in
  foldl (λ ordered pair, ordered ++ [pair.1; pair.2]) []
    (zip id_cols label_cols).

End Table.

(** * Properties *)

Module DepthFacts.
Import Depth.

(** *** Loop invariants *)

Section loop.
Context (call : string → state → outcome (Z * state)).
Context (I : state → Prop) (Q : string → Z → Prop).

Lemma max_over_inv parent_ids :
  (∀ p s, p ∈ parent_ids → I s →
     ∃ d s', call p s = Ret (d, s') ∧ I s' ∧ Q p d) →
  ∀ acc s, I s →
    ∃ ds s', max_over call parent_ids acc s = Ret (foldl Z.max acc ds, s')
             ∧ I s' ∧ Forall2 Q parent_ids ds.
Proof.
  induction parent_ids as [|p ps IH]; intros Hcall acc s Hs.
  - exists [], s. by split_and!.
  - destruct (Hcall p s) as (d & s1 & Hp & Hs1 & Hq); [left | done |].
    destruct (IH (λ q t Hq', Hcall q t (list_elem_of_further _ _ _ Hq'))
                 (Z.max acc d) s1 Hs1) as (ds & s2 & Hrest & Hs2 & Hall).
    exists (d :: ds), s2. cbn. rewrite Hp. cbn. rewrite Hrest.
    split_and!; [done | done | by constructor].
Qed.

Lemma max_over_ret parent_ids :
  (∀ p s d s', call p s = Ret (d, s') → I s → I s') →
  ∀ acc s m s', max_over call parent_ids acc s = Ret (m, s') → I s → I s'.
Proof.
  intros Hcall. induction parent_ids as [|p ps IH]; intros acc s m s' Hrun Hs.
  - cbn in Hrun. by simplify_eq.
  - cbn in Hrun. destruct (call p s) as [[d s1]| |] eqn:Hp; cbn in Hrun; try done.
    eapply IH; [exact Hrun |]. by eapply Hcall.
Qed.
End loop.

(** *** The recursion-path set *)

Section frame.
Context (iter : string → gset string → list string).
Context (parent_map : gmap string (gset string)).

Lemma calculate_depth_visited fuel : ∀ skill_id s d s',
  calculate_depth iter parent_map fuel skill_id s = Ret (d, s') →
  visited s' = visited s.
Proof.
  induction fuel as [|fuel IH]; intros n s d s' Hrun; [done |].
  cbn in Hrun. destruct (memo s !! n); [by simplify_eq |].
  case_decide; [by simplify_eq |].
  destruct (parent_map !! n) as [ps|]; [| by simplify_eq].
  case_decide; [by simplify_eq |].
  destruct (max_over _ _ _ _) as [[m s2]| |] eqn:Hloop; cbn in Hrun; try done.
  apply (max_over_ret _ (λ t, visited t = {[n]} ∪ visited s)) in Hloop;
    [| intros p t d' t' Hp Ht; by rewrite (IH _ _ _ _ Hp) | done].
  unfold visited_remove in Hrun. case_decide; cbn in Hrun; [| done].
  simplify_eq. cbn. rewrite Hloop. set_solver.
Qed.

Lemma calculate_depth_returns fuel : ∀ skill_id s,
  (size (dom parent_map ∖ visited s) < fuel)%nat →
  ∃ d s', calculate_depth iter parent_map fuel skill_id s = Ret (d, s')
          ∧ visited s' = visited s.
Proof.
  induction fuel as [|fuel IH]; intros n s Hfuel; [lia |].
  cbn. destruct (memo s !! n); [by eauto |].
  case_decide as Hvis; [by eauto |].
  destruct (parent_map !! n) as [ps|] eqn:Hps; [| by eauto].
  case_decide; [by eauto |].
  assert (size (dom parent_map ∖ ({[n]} ∪ visited s))
          < size (dom parent_map ∖ visited s))%nat as Hless.
  { apply subset_size. apply elem_of_dom_2 in Hps. set_solver. }
  destruct (max_over_inv (calculate_depth iter parent_map fuel)
              (λ t, visited t = {[n]} ∪ visited s) (λ _ _, True) (iter n ps))
    with (acc := 0) (s := visited_add n s) as (ds & s2 & Hloop & Hs2 & _);
    [| done |].
  { intros p t _ Ht. destruct (IH p t) as (d & t' & Hp & Ht'); [rewrite Ht; lia |].
    exists d, t'. split_and!; [done | congruence | done]. }
  rewrite Hloop. cbn. unfold visited_remove.
  rewrite decide_True by (rewrite Hs2; set_solver).
  cbn. eexists _, _. split; [done |]. cbn. rewrite Hs2. set_solver.
Qed.
End frame.

(** *** Acyclic edge indexes *)

Lemma foldl_max_foldr (ds : list Z) : ∀ acc,
  0 ≤ acc → foldl Z.max acc ds = Z.max acc (foldr Z.max 0 ds).
Proof.
  induction ds as [|d ds IH]; intros acc Hacc; cbn; [lia |].
  rewrite IH by lia. lia.
Qed.

Lemma foldr_max_perm (ds ds' : list Z) :
  ds ≡ₚ ds' → foldr Z.max 0 ds = foldr Z.max 0 ds'.
Proof. induction 1; cbn; lia. Qed.

Lemma foldr_max_ub (ds : list Z) d : d ∈ ds → d ≤ foldr Z.max 0 ds.
Proof. induction 1; cbn; lia. Qed.

Lemma foldr_max_attained (ds : list Z) :
  Forall (λ d, 1 ≤ d) ds → ds ≠ [] → foldr Z.max 0 ds ∈ ds.
Proof.
  induction 1 as [|d ds Hd Hds IH]; intros Hne; [done |]. cbn.
  destruct ds as [|d' ds'].
  - cbn. rewrite Z.max_l by lia. left.
  - destruct (Z.max_spec d (foldr Z.max 0 (d' :: ds'))) as [[_ ->]|[_ ->]].
    + right. by apply IH.
    + left.
Qed.

#[local] Arguments Depth.lvl : simpl never.

Section ranked.
Context (parent_map : gmap string (gset string)).
Context (rank : string → nat).
Hypothesis rank_decreases : acyclic_by rank parent_map.

Lemma rank_parent child p :
  p ∈ parents parent_map child → (rank p < rank child)%nat.
Proof.
  unfold parents. destruct (parent_map !! child) as [ps|] eqn:Hps; cbn; [| set_solver].
  intros Hp. exact (rank_decreases child ps Hps p Hp).
Qed.

Lemma level_stable k : ∀ k' n,
  (rank n < k)%nat → (rank n < k')%nat →
  level parent_map k n = level parent_map k' n.
Proof.
  induction k as [|k IH]; intros [|k'] n Hk Hk'; try lia.
  cbn. case_decide; [done |]. do 2 f_equal.
  apply list_fmap_ext. intros i p Hp%list_elem_of_lookup_2%elem_of_elements.
  apply rank_parent in Hp. apply IH; lia.
Qed.

Local Abbreviation lvl := (Depth.lvl parent_map rank).

Lemma lvl_unfold n :
  lvl n = if decide (parents parent_map n = ∅) then 1
          else foldr Z.max 0 (lvl <$> elements (parents parent_map n)) + 1.
Proof.
  unfold lvl at 1. cbn. case_decide; [done |]. do 2 f_equal.
  apply list_fmap_ext. intros i p Hp%list_elem_of_lookup_2%elem_of_elements.
  apply rank_parent in Hp. apply level_stable; lia.
Qed.

Lemma lvl_positive n : 1 ≤ lvl n.
Proof.
  rewrite lvl_unfold. case_decide; [done |].
  assert (0 ≤ foldr Z.max 0 (lvl <$> elements (parents parent_map n))); [| lia].
  generalize (lvl <$> elements (parents parent_map n)).
  intros ds. induction ds; cbn; lia.
Qed.

End ranked.

Section acyclic.
Context (iter : string → gset string → list string).
Context (parent_map : gmap string (gset string)).
Context (rank : string → nat).
Hypothesis iter_enumerates : enumerates iter.
Hypothesis rank_decreases : acyclic_by rank parent_map.
Local Abbreviation lvl := (Depth.lvl parent_map rank).

Lemma calculate_depth_lvl fuel : ∀ n s,
  (size (dom parent_map ∖ visited s) < fuel)%nat →
  memo_sound lvl (memo s) →
  (∀ v, v ∈ visited s → (rank n < rank v)%nat) →
  ∃ s', calculate_depth iter parent_map fuel n s = Ret (lvl n, s')
        ∧ memo_sound lvl (memo s')
        ∧ visited s' = visited s ∧ stdout s' = stdout s.
Proof.
  induction fuel as [|fuel IH]; intros n s Hfuel Hmemo Hrank; [lia |].
  cbn. destruct (memo s !! n) as [d|] eqn:Hd.
  { exists s. by rewrite (Hmemo n d Hd). }
  rewrite decide_False by (intros Hn%Hrank; lia).
  assert (∀ d, d = lvl n → memo_sound lvl (memo (set_memo n d s))) as Hset.
  { intros d -> k d'. cbn. rewrite lookup_insert. case_decide; naive_solver. }
  pose proof (lvl_unfold _ _ rank_decreases n) as Hn. unfold parents in Hn.
  destruct (parent_map !! n) as [ps|] eqn:Hps; cbn in Hn.
  2:{ rewrite decide_True in Hn by done. eexists. split_and!; [by rewrite Hn | | done..].
      by apply Hset. }
  case_decide as Hempty.
  { eexists. split_and!; [by rewrite Hn | | done..]. by apply Hset. }
  assert (size (dom parent_map ∖ ({[n]} ∪ visited s))
          < size (dom parent_map ∖ visited s))%nat as Hless.
  { apply subset_size. apply elem_of_dom_2 in Hps.
    assert (n ∉ visited s) by (intros Hv%Hrank; lia). set_solver. }
  destruct (max_over_inv (calculate_depth iter parent_map fuel)
              (λ t, memo_sound lvl (memo t) ∧ visited t = {[n]} ∪ visited s
                    ∧ stdout t = stdout s)
              (λ p d, d = lvl p) (iter n ps))
    with (acc := 0) (s := visited_add n s) as (ds & s2 & Hloop & (Hm2 & Hv2 & Ho2) & Hds);
    [| done |].
  { intros p t Hp (Hmt & Hvt & Hot).
    assert (rank p < rank n)%nat as Hpn.
    { apply (rank_parent _ _ rank_decreases). unfold parents. rewrite Hps. cbn.
      rewrite (iter_enumerates n ps) in Hp. by apply elem_of_elements. }
    destruct (IH p t) as (t' & Hrun & Hmt' & Hvt' & Hot'); [rewrite Hvt; lia | done | |].
    { intros v. rewrite Hvt. intros [->%elem_of_singleton|Hv%Hrank]%elem_of_union; lia. }
    exists (lvl p), t'. split_and!; [done | done | congruence | congruence | done]. }
  rewrite Hloop. cbn. unfold visited_remove.
  rewrite decide_True by (rewrite Hv2; set_solver). cbn.
  assert (ds = lvl <$> iter n ps) as ->.
  { clear -Hds. induction Hds; cbn; congruence. }
  assert (foldl Z.max 0 (lvl <$> iter n ps) + 1 = lvl n) as ->.
  { rewrite Hn, foldl_max_foldr by done.
    rewrite (foldr_max_perm _ (lvl <$> elements ps))
      by (apply fmap_Permutation, iter_enumerates).
    assert (0 ≤ foldr Z.max 0 (lvl <$> elements ps)); [| lia].
    generalize (lvl <$> elements ps). intros l. induction l; cbn; lia. }
  eexists. split_and!; [done | | |]; cbn; [| | done].
  - intros k d'. rewrite lookup_insert. case_decide; naive_solver.
  - rewrite Hv2. assert (n ∉ visited s) by (intros Hv%Hrank; lia). set_solver.
Qed.

Lemma query_lvl n m out :
  memo_sound lvl m →
  ∃ s', query iter parent_map n m out = Ret (lvl n, s')
        ∧ memo_sound lvl (memo s') ∧ stdout s' = out.
Proof.
  intros Hm. unfold query.
  destruct (calculate_depth_lvl (S (size parent_map)) n (State m ∅ out))
    as (s' & Hrun & Hm' & _ & Ho); cbn; [| done | set_solver |].
  - rewrite difference_empty_L, size_dom. lia.
  - by exists s'.
Qed.

Lemma depth_lvl n : depth iter parent_map n = lvl n.
Proof.
  unfold depth. destruct (query_lvl n ∅ []) as (s' & -> & _); [| done].
  intros k d. by rewrite lookup_empty.
Qed.

Lemma add_level_column_lvl ids : ∀ m out,
  memo_sound lvl m →
  ∃ m', add_level_column iter parent_map ids m out = Ret (lvl <$> ids, m', out).
Proof.
  induction ids as [|n ids IH]; intros m out Hm; cbn -[query]; [by eauto |].
  destruct (query_lvl n m out Hm) as (s' & -> & Hm' & Ho). cbn.
  destruct (IH (memo s') (stdout s') Hm') as (m' & ->). cbn.
  exists m'. by rewrite Ho.
Qed.
End acyclic.

(** *** The enumeration order only matters on the sets of the index *)

Lemma max_over_ext call call' parent_ids :
  (∀ p s, call p s = call' p s) →
  ∀ acc s, max_over call parent_ids acc s = max_over call' parent_ids acc s.
Proof.
  intros Heq. induction parent_ids as [|p ps IH]; intros acc s; cbn; [done |].
  rewrite Heq. destruct (call' p s) as [[d s']| |]; cbn; [apply IH | done..].
Qed.

Lemma calculate_depth_ext iter iter' parent_map fuel :
  map_Forall (λ k ps, iter k ps = iter' k ps) parent_map →
  ∀ n s, calculate_depth iter parent_map fuel n s
         = calculate_depth iter' parent_map fuel n s.
Proof.
  intros Hiter. induction fuel as [|fuel IH]; intros n s; cbn; [done |].
  destruct (memo s !! n); [done |]. case_decide; [done |].
  destruct (parent_map !! n) as [ps|] eqn:Hps; [| done].
  case_decide; [done |].
  rewrite (Hiter n ps Hps). by rewrite (max_over_ext _ _ _ IH).
Qed.

Lemma add_level_column_ext iter iter' parent_map ids :
  map_Forall (λ k ps, iter k ps = iter' k ps) parent_map →
  ∀ m out, add_level_column iter parent_map ids m out
           = add_level_column iter' parent_map ids m out.
Proof.
  intros Hiter. induction ids as [|n ids IH]; intros m out; cbn -[query]; [done |].
  unfold query. rewrite (calculate_depth_ext _ _ _ _ Hiter).
  destruct (calculate_depth _ _ _ _ _) as [[d s]| |]; cbn -[query]; [| done..].
  by rewrite IH.
Qed.

Lemma single_parent_order iter iter' (parent_map : gmap string (gset string)) :
  enumerates iter → enumerates iter' →
  map_Forall (λ _ ps, (size ps ≤ 1)%nat) parent_map →
  map_Forall (λ k ps, iter k ps = iter' k ps) parent_map.
Proof.
  intros Hiter Hiter' Hsize k ps Hk. specialize (Hsize k ps Hk). cbn in *.
  assert (iter k ps ≡ₚ iter' k ps) as Hperm
    by (by rewrite (Hiter k ps), (Hiter' k ps)).
  assert (length (iter k ps) ≤ 1)%nat as Hlen.
  { rewrite (Hiter k ps). exact Hsize. }
  destruct (iter k ps) as [|x [|y l]]; cbn in Hlen; [| | lia].
  - by apply Permutation_nil_l in Hperm.
  - by apply Permutation_singleton_l in Hperm.
Qed.

(** *** Building the index *)

Lemma build_parent_map_parents rows : ∀ parent_map child p,
  p ∈ parents parent_map child ∨ (child, p) ∈ rows →
  p ∈ parents (foldl add_edge parent_map rows) child.
Proof.
  induction rows as [|[c q] rows IH]; intros pm child p Hp; cbn.
  - destruct Hp as [Hp|Hp]; [done | by apply not_elem_of_nil in Hp].
  - apply IH. unfold parents, add_edge in *. cbn.
    rewrite lookup_insert. case_decide as Hc; cbn.
    + destruct Hp as [Hp|[Hp|Hp]%elem_of_cons]; subst.
      * set_solver.
      * simplify_eq. left. set_solver.
      * by right.
    + destruct Hp as [Hp|[Hp|Hp]%elem_of_cons]; [by left | by simplify_eq | by right].
Qed.

Lemma add_edge_present parent_map child p :
  p ∈ parents parent_map child → add_edge parent_map (child, p) = parent_map.
Proof.
  unfold parents, add_edge. cbn.
  destruct (parent_map !! child) as [ps|] eqn:Hps; cbn; [| set_solver].
  intros Hp. apply insert_id. rewrite Hps. f_equal. set_solver.
Qed.

(** *** The claims on the depth resolver *)

(** C1.  In an acyclic edge index, [depth] of a node without recorded
    parents is 1, and [depth] of a node with recorded parents is 1 plus the
    greatest [depth] among its parents; every query of a run returns, and
    the shared memo table does not change what it returns. *)
Theorem depth_equations iter parent_map rank :
  enumerates iter → acyclic_by rank parent_map →
  (∀ n, parents parent_map n = ∅ → depth iter parent_map n = 1)
  ∧ (∀ n, parents parent_map n ≠ ∅ →
       ∃ p, p ∈ parents parent_map n
            ∧ depth iter parent_map n = 1 + depth iter parent_map p
            ∧ ∀ q, q ∈ parents parent_map n →
                   depth iter parent_map q ≤ depth iter parent_map p)
  ∧ (∀ ids, ∃ memo',
       add_level_column iter parent_map ids ∅ []
       = Ret (depth iter parent_map <$> ids, memo', [])).
Proof.
  intros Hiter Hrank.
  pose proof (depth_lvl iter parent_map rank Hiter Hrank) as Hd.
  pose proof (lvl_unfold parent_map rank Hrank) as Hu.
  split_and!.
  - intros n Hn. by rewrite Hd, Hu, decide_True.
  - intros n Hn. specialize (Hu n). rewrite decide_False in Hu by done.
    set (ds := lvl parent_map rank <$> elements (parents parent_map n)) in *.
    assert (foldr Z.max 0 ds ∈ ds) as Hmax.
    { apply foldr_max_attained.
      - apply Forall_fmap, Forall_forall. intros p _. cbn.
        by apply lvl_positive.
      - unfold ds. intros Hnil%fmap_nil_inv%elements_empty_inv. by apply Hn, leibniz_equiv. }
    apply list_elem_of_fmap in Hmax as (p & Hp & Hin%elem_of_elements).
    exists p. rewrite !Hd. split_and!; [done | lia |].
    intros q Hq. rewrite Hd, <-Hp. apply foldr_max_ub.
    apply list_elem_of_fmap. exists q. by rewrite elem_of_elements.
  - intros ids.
    destruct (add_level_column_lvl iter parent_map rank Hiter Hrank ids ∅ [])
      as (m' & ->); [intros k d; by rewrite lookup_empty |].
    exists m'. do 3 f_equal. apply list_fmap_ext. intros _ n _. by rewrite Hd.
Qed.

Lemma depth_equations_witness :
  enumerates Scenario.ascending
  ∧ acyclic_by Scenario.diamond_rank (build_parent_map Scenario.diamond)
  ∧ (parents (build_parent_map Scenario.diamond) "A" = ∅ →
     depth Scenario.ascending (build_parent_map Scenario.diamond) "A" = 1).
Proof.
  assert (enumerates Scenario.ascending) as Hiter by (by intros k s).
  assert (acyclic_by Scenario.diamond_rank (build_parent_map Scenario.diamond))
    as Hrank by (refine (bool_decide_unpack _ _); by vm_compute).
  split_and!; [done | done |].
  apply (depth_equations Scenario.ascending _ _ Hiter Hrank).
Defined.

(** C2 as the claim states it is refuted: on the two-edge cycle, the first
    query of a run, for [X], returns 3, which is neither 1 nor 2. *)
Lemma cycle_depth_not_1_or_2 :
  ¬ (depth Scenario.ascending (build_parent_map Scenario.cycle) "X" = 1
     ∨ depth Scenario.ascending (build_parent_map Scenario.cycle) "X" = 2).
Proof. vm_compute. by intros [|]. Qed.

(** C2, amended.  On the edge index of [{X→Y, Y→X}] every query returns.
    Queried first, [X] resolves to 3 ([Y] is memoised at 2) and the warning
    names [X]; queried after [Y], [X] resolves to 2, read from the memo
    table, and the one warning of the run was printed while [Y] was being
    resolved. *)
Theorem cycle_depth iter :
  enumerates iter →
  query iter (build_parent_map Scenario.cycle) "X" ∅ []
  = Ret (3, State {["X" := 3; "Y" := 2]} ∅ ["Warning: Cycle detected at X"%string])
  ∧ add_level_column iter (build_parent_map Scenario.cycle) ["Y"; "X"]%string ∅ []
    = Ret ([3; 2], {["X" := 2; "Y" := 3]}, ["Warning: Cycle detected at Y"%string]).
Proof.
  intros Hiter.
  assert (map_Forall (λ k ps, iter k ps = Scenario.ascending k ps)
            (build_parent_map Scenario.cycle)) as Hext.
  { apply single_parent_order; [done | by intros k s |].
    refine (bool_decide_unpack _ _). by vm_compute. }
  split.
  - unfold query. rewrite (calculate_depth_ext _ _ _ _ Hext). by vm_compute.
  - rewrite (add_level_column_ext _ _ _ _ Hext). by vm_compute.
Qed.

Lemma cycle_depth_witness :
  enumerates Scenario.ascending
  ∧ ∃ s, query Scenario.ascending (build_parent_map Scenario.cycle) "X" ∅ [] = Ret (3, s).
Proof.
  assert (enumerates Scenario.ascending) as Hiter by (by intros k s).
  split; [done |]. eexists. exact (proj1 (cycle_depth Scenario.ascending Hiter)).
Defined.

(** C3 as the claim states it is refuted: [load_hierarchy] keeps the parents
    of a child in a list, so an edge given twice changes the index and the
    paths that are returned. *)
Lemma load_hierarchy_not_idempotent :
  Paths.load_hierarchy Scenario.twice ≠ Paths.load_hierarchy Scenario.once
  ∧ Paths.paths (Paths.load_hierarchy Scenario.twice) "B"
    = Ret [["B"; "A"]; ["B"; "A"]]%string
  ∧ Paths.paths (Paths.load_hierarchy Scenario.once) "B"
    = Ret [["B"; "A"]]%string.
Proof.
  split_and!; [| by vm_compute..].
  intros Heq. apply (f_equal (λ m, m !! "B"%string)) in Heq.
  vm_compute in Heq. done.
Qed.

(** C3, amended.  [build_parent_map] is idempotent with respect to
    duplicate edges: a row that repeats an earlier row of the stream leaves
    the edge index as it is, hence the depth of every node as well. *)
Theorem build_parent_map_idempotent (before after : list (string * string))
    (edge : string * string) :
  edge ∈ before →
  build_parent_map (before ++ edge :: after) = build_parent_map (before ++ after)
  ∧ ∀ iter n ids,
      depth iter (build_parent_map (before ++ edge :: after)) n
      = depth iter (build_parent_map (before ++ after)) n
      ∧ add_level_column iter (build_parent_map (before ++ edge :: after)) ids ∅ []
        = add_level_column iter (build_parent_map (before ++ after)) ids ∅ [].
Proof.
  intros Hin.
  assert (build_parent_map (before ++ edge :: after)
          = build_parent_map (before ++ after)) as Heq.
  { unfold build_parent_map. rewrite !foldl_app. cbn. f_equal.
    destruct edge as [child p]. apply add_edge_present.
    apply build_parent_map_parents. by right. }
  split; [done |]. intros iter n ids. by rewrite Heq.
Qed.

Lemma build_parent_map_idempotent_witness :
  build_parent_map Scenario.twice = build_parent_map Scenario.once.
Proof.
  apply (build_parent_map_idempotent [("B", "A")]%string [] ("B", "A")%string).
  left.
Defined.

(** C8 as the claim states it is refuted: with a cycle between two of the
    parents of a node, the order in which the parents are enumerated
    changes the depth. *)
Lemma depth_order_dependent :
  enumerates Scenario.ascending ∧ enumerates Scenario.descending
  ∧ depth Scenario.ascending (build_parent_map Scenario.tangle) "A" = 4
  ∧ depth Scenario.descending (build_parent_map Scenario.tangle) "A" = 5.
Proof.
  split_and!; [by intros k s | | by vm_compute..].
  intros k s. apply reverse_Permutation.
Qed.

(** C8, amended.  In an acyclic edge index, two evaluations that enumerate
    the parent sets in different orders return the same depth for every
    node, in every run of queries. *)
Theorem depth_order_independent iter1 iter2 parent_map rank :
  enumerates iter1 → enumerates iter2 → acyclic_by rank parent_map →
  (∀ n, depth iter1 parent_map n = depth iter2 parent_map n)
  ∧ ∀ ids, ∃ levels memo1 memo2,
      add_level_column iter1 parent_map ids ∅ [] = Ret (levels, memo1, [])
      ∧ add_level_column iter2 parent_map ids ∅ [] = Ret (levels, memo2, []).
Proof.
  intros Hiter1 Hiter2 Hrank. split.
  - intros n. by rewrite !(depth_lvl _ _ rank).
  - intros ids.
    assert (memo_sound (lvl parent_map rank) ∅) as Hm
      by (intros k d; by rewrite lookup_empty).
    destruct (add_level_column_lvl iter1 _ _ Hiter1 Hrank ids ∅ [] Hm) as (m1 & ->).
    destruct (add_level_column_lvl iter2 _ _ Hiter2 Hrank ids ∅ [] Hm) as (m2 & ->).
    by eauto.
Qed.

Lemma depth_order_independent_witness :
  enumerates Scenario.ascending ∧ enumerates Scenario.descending
  ∧ acyclic_by Scenario.diamond_rank (build_parent_map Scenario.diamond)
  ∧ depth Scenario.ascending (build_parent_map Scenario.diamond) "D"
    = depth Scenario.descending (build_parent_map Scenario.diamond) "D".
Proof.
  assert (enumerates Scenario.ascending) as H1 by (by intros k s).
  assert (enumerates Scenario.descending) as H2
    by (intros k s; apply reverse_Permutation).
  assert (acyclic_by Scenario.diamond_rank (build_parent_map Scenario.diamond))
    as H3 by (refine (bool_decide_unpack _ _); by vm_compute).
  split_and!; [done..|].
  apply (depth_order_independent _ _ _ _ H1 H2 H3).
Defined.

(** C10.  [calculate_depth] leaves the recursion-path set as it found it:
    whenever a call returns, [visited] is what it was before the call, and
    a call does return once the recursion budget exceeds the number of keys
    of the index that are not in [visited].  This holds for every node,
    index, memo table and recursion-path set, in particular for a set that
    does not contain the node. *)
Theorem calculate_depth_restores_visited iter parent_map skill_id s :
  (∀ fuel d s',
     calculate_depth iter parent_map fuel skill_id s = Ret (d, s') →
     visited s' = visited s)
  ∧ (∀ fuel, (size (dom parent_map ∖ visited s) < fuel)%nat →
       ∃ d s', calculate_depth iter parent_map fuel skill_id s = Ret (d, s')
               ∧ visited s' = visited s).
Proof.
  split.
  - intros fuel d s'. apply calculate_depth_visited.
  - intros fuel. apply calculate_depth_returns.
Qed.

Lemma calculate_depth_restores_visited_witness :
  ∃ d s', calculate_depth Scenario.ascending (build_parent_map Scenario.cycle) 3 "Y"
            (State ∅ {["X"%string]} []) = Ret (d, s')
          ∧ visited s' = {["X"%string]}.
Proof.
  refine (proj2 (calculate_depth_restores_visited Scenario.ascending
                   (build_parent_map Scenario.cycle) "Y"
                   (State ∅ {["X"%string]} [])) 3%nat _).
  vm_compute. lia.
Defined.

End DepthFacts.

Module PathsFacts.
Import Paths.

(** *** The loop over the parents *)

Section branches.
Context (call : string → list string → ref → gmap ref (gset string) →
                outcome (list (list string) * gmap ref (gset string))).
Context (J : gmap ref (gset string) → Prop).
Context (F : string → list (list string)).
Context (current_path : list string) (visited : ref).

Lemma extend_all_inv parent_ids :
  (∀ p h, p ∈ parent_ids → J h →
     ∃ h2, call p (current_path ++ [p]) (set_copy visited h).1 (set_copy visited h).2
           = Ret (F p, h2) ∧ J h2) →
  ∀ all_paths h, J h →
    ∃ h', extend_all call parent_ids current_path visited all_paths h
          = Ret (all_paths ++ (parent_ids ≫= F), h') ∧ J h'.
Proof.
  induction parent_ids as [|p ps IH]; intros Hcall acc h Hh.
  - exists h. cbn. by rewrite app_nil_r.
  - destruct (Hcall p h) as (h2 & Hp & Hh2); [left | done |].
    destruct (IH (λ q t Hq, Hcall q t (list_elem_of_further _ _ _ Hq))
                 (acc ++ F p) h2 Hh2) as (h' & Hrest & Hh').
    exists h'. split; [| done]. rewrite bind_cons, app_assoc, <-Hrest.
    cbn [extend_all]. destruct (set_copy visited h) as [r h1].
    cbn [fst snd] in Hp. by rewrite Hp.
Qed.
End branches.

(** *** The store model against the enumeration of the specification *)

Section enumerator.
Context (child_to_parents : gmap string (list string)).

Lemma get_all_paths_defaults fuel skill_id h :
  get_all_paths child_to_parents fuel skill_id None None h
  = get_all_paths child_to_parents fuel skill_id (Some [skill_id])
      (Some (set_new h).1) (set_new h).2.
Proof. by destruct fuel. Qed.

Lemma paths_spec_fuel fuel : ∀ fuel' n cp vs,
  (size (dom child_to_parents ∖ vs) < fuel)%nat →
  (size (dom child_to_parents ∖ vs) < fuel')%nat →
  paths_spec child_to_parents fuel n cp vs
  = paths_spec child_to_parents fuel' n cp vs.
Proof.
  induction fuel as [|fuel IH]; intros [|fuel'] n cp vs Hf Hf'; try lia.
  cbn. case_decide as Hvis; [done |].
  destruct (child_to_parents !! n) as [ps|] eqn:Hps; [| done].
  case_decide; [done |].
  assert (size (dom child_to_parents ∖ ({[n]} ∪ vs))
          < size (dom child_to_parents ∖ vs))%nat.
  { apply subset_size. apply elem_of_dom_2 in Hps. set_solver. }
  apply list_bind_ext; [| done]. intros p. apply IH; lia.
Qed.

Lemma get_all_paths_spec fuel : ∀ n cp v h,
  v ∈ dom h →
  (size (dom child_to_parents ∖ h !!! v) < fuel)%nat →
  ∃ h', get_all_paths child_to_parents fuel n (Some cp) (Some v) h
        = Ret (paths_spec child_to_parents fuel n cp (h !!! v), h')
        ∧ dom h ⊆ dom h'
        ∧ (∀ r, r ∈ dom h → r ≠ v → h' !! r = h !! r)
        ∧ (n ∈ h !!! v ∨ no_parents child_to_parents n → h' = h)
        ∧ (n ∉ h !!! v → ¬ no_parents child_to_parents n →
           h' !!! v = {[n]} ∪ h !!! v).
Proof.
  induction fuel as [|fuel IH]; intros n cp v h Hv Hfuel; [lia |].
  cbn. unfold no_parents. case_decide as Hvis; [exists h; by auto |].
  destruct (child_to_parents !! n) as [ps|] eqn:Hps; [| exists h; by auto].
  case_decide; [exists h; by auto |].
  set (vs := h !!! v) in *. set (h0 := set_add v n h).
  assert (size (dom child_to_parents ∖ ({[n]} ∪ vs))
          < size (dom child_to_parents ∖ vs))%nat.
  { apply subset_size. apply elem_of_dom_2 in Hps. set_solver. }
  assert (dom h0 = dom h) as Hdom0.
  { unfold h0, set_add. rewrite dom_insert_L. set_solver. }
  assert (h0 !! v = Some ({[n]} ∪ vs)) as Hv0 by apply lookup_insert_eq.
  destruct (extend_all_inv
              (λ p cp' v', get_all_paths child_to_parents fuel p (Some cp') (Some v'))
              (λ t, dom h0 ⊆ dom t ∧ ∀ r, r ∈ dom h0 → t !! r = h0 !! r)
              (λ p, paths_spec child_to_parents fuel p (cp ++ [p]) ({[n]} ∪ vs))
              cp v ps) with (all_paths := @nil (list string)) (h := h0)
    as (h' & Hloop & Hsub & Hsame); [| done |].
  { intros p t _ [Hsub Hsame]. unfold set_copy. cbn.
    set (r := fresh (dom t)).
    assert (r ∉ dom t) as Hr by apply is_fresh.
    assert (t !!! v = {[n]} ∪ vs) as Htv.
    { unfold lookup_total, map_lookup_total. rewrite Hsame, Hv0; [done |].
      by rewrite Hdom0. }
    destruct (IH p (cp ++ [p]) r (<[r := t !!! v]> t))
      as (t' & Hrun & Hsub' & Hsame' & _).
    { rewrite dom_insert_L. set_solver. }
    { rewrite lookup_total_insert_eq, Htv. lia. }
    rewrite lookup_total_insert_eq, Htv in Hrun.
    exists t'. split; [by rewrite Htv |]. split.
    - rewrite dom_insert_L in Hsub'. set_solver.
    - intros l Hl. rewrite <-Hsame by done.
      rewrite Hsame'; [| rewrite dom_insert_L; set_solver | set_solver].
      apply lookup_insert_ne. set_solver. }
  cbn in Hloop. fold h0. exists h'. split; [exact Hloop |].
  rewrite <-Hdom0. split; [done |]. split_and!.
  - intros r Hr Hne. rewrite Hsame by done. by apply lookup_insert_ne.
  - by intros [|].
  - intros _ _. unfold lookup_total, map_lookup_total.
    rewrite Hsame, Hv0; [done |]. rewrite Hdom0. done.
Qed.

Lemma paths_returns skill_id :
  paths child_to_parents skill_id
  = Ret (paths_spec child_to_parents (S (size child_to_parents)) skill_id
           [skill_id] ∅).
Proof.
  unfold paths. rewrite get_all_paths_defaults.
  destruct (get_all_paths_spec (S (size child_to_parents)) skill_id [skill_id]
              (set_new ∅).1 (set_new ∅).2) as (h' & Hrun & _).
  - unfold set_new. cbn. rewrite dom_insert_L. set_solver.
  - unfold set_new. cbn. rewrite lookup_total_insert_eq, difference_empty_L, size_dom. lia.
  - rewrite Hrun. cbn. unfold set_new. cbn. by rewrite lookup_total_insert_eq.
Qed.

(** *** What the enumeration returns *)

Lemma paths_spec_nonempty fuel : ∀ n cp vs,
  (size (dom child_to_parents ∖ vs) < fuel)%nat →
  paths_spec child_to_parents fuel n cp vs ≠ [].
Proof.
  induction fuel as [|fuel IH]; intros n cp vs Hfuel; [lia |].
  cbn. case_decide as Hvis; [done |].
  destruct (child_to_parents !! n) as [[|p ps]|] eqn:Hps; [done | | done].
  rewrite decide_False by done. rewrite bind_cons.
  intros [Hnil _]%app_eq_nil. revert Hnil. apply IH.
  assert (size (dom child_to_parents ∖ ({[n]} ∪ vs))
          < size (dom child_to_parents ∖ vs))%nat; [| lia].
  apply subset_size. apply elem_of_dom_2 in Hps. set_solver.
Qed.

Lemma paths_spec_prefix fuel : ∀ n cp vs path,
  path ∈ paths_spec child_to_parents fuel n cp vs → cp `prefix_of` path.
Proof.
  induction fuel as [|fuel IH]; intros n cp vs path; cbn.
  { by intros ?%not_elem_of_nil. }
  case_decide; [by intros ->%list_elem_of_singleton |].
  destruct (child_to_parents !! n) as [ps|];
    [| by intros ->%list_elem_of_singleton].
  case_decide; [by intros ->%list_elem_of_singleton |].
  intros (p & Hpath%IH & _)%list_elem_of_bind. by eapply prefix_app_l.
Qed.

Lemma paths_spec_end fuel : ∀ n init vs path,
  (∀ x, x ∈ vs → x ∈ init) →
  path ∈ paths_spec child_to_parents fuel n (init ++ [n]) vs →
  ∃ init' l, path = init' ++ [l]
             ∧ (no_parents child_to_parents l ∨ l ∈ init').
Proof.
  induction fuel as [|fuel IH]; intros n init vs path Hvs; cbn.
  { by intros ?%not_elem_of_nil. }
  unfold no_parents.
  case_decide as Hvis.
  { intros ->%list_elem_of_singleton. exists init, n. by auto. }
  destruct (child_to_parents !! n) as [ps|] eqn:Hps.
  2:{ intros ->%list_elem_of_singleton. exists init, n. rewrite Hps. by auto. }
  case_decide as Hnil.
  { intros ->%list_elem_of_singleton. exists init, n. rewrite Hps. by auto. }
  intros (p & Hpath & _)%list_elem_of_bind.
  apply (IH p (init ++ [n]) ({[n]} ∪ vs) path); [| done].
  intros x [->%elem_of_singleton|Hx%Hvs]%elem_of_union; set_solver.
Qed.

Lemma bind_concat {A B} (f : A → list B) (l : list A) :
  l ≫= f = concat (f <$> l).
Proof. induction l as [|x l IH]; [done |]. by rewrite bind_cons, IH. Qed.
End enumerator.

(** *** The claims on the path enumerator *)

(** C5.  For every node identifier, with or without an entry in the edge
    index, [paths] returns, the collection it returns is not empty, and
    every path in it starts with the queried node. *)
Theorem paths_nonempty_rooted (child_to_parents : gmap string (list string))
    (skill_id : string) :
  ∃ all_paths,
    paths child_to_parents skill_id = Ret all_paths
    ∧ all_paths ≠ []
    ∧ Forall (λ path, head path = Some skill_id) all_paths.
Proof.
  eexists. split; [apply paths_returns |]. split.
  - apply paths_spec_nonempty. rewrite difference_empty_L, size_dom. lia.
  - apply Forall_forall. intros path [rest ->]%paths_spec_prefix. done.
Qed.

(** C6.  Every path that [paths] returns ends at a node without recorded
    parents, or at a node that occurs earlier in the same path. *)
Theorem paths_end_at_root_or_cycle (child_to_parents : gmap string (list string))
    (skill_id : string) :
  ∃ all_paths,
    paths child_to_parents skill_id = Ret all_paths
    ∧ Forall (λ path, ∃ init l, path = init ++ [l]
                ∧ (no_parents child_to_parents l ∨ l ∈ init)) all_paths.
Proof.
  eexists. split; [apply paths_returns |].
  apply Forall_forall. intros path Hpath.
  apply (paths_spec_end child_to_parents (S (size child_to_parents))
           skill_id [] ∅ path); [set_solver | done].
Qed.

(** C7.  A node with recorded parents that is not yet in its [visited] set
    returns the concatenation, in the order of the parents, of what each
    parent's branch returns when it is run on its own, from a store that
    holds nothing but a set with the node added to the caller's [visited]:
    no branch sees what a sibling added.  The caller's set ends with just
    the node added, and no other set of the store is touched. *)
Theorem sibling_branches_independent
    (child_to_parents : gmap string (list string)) (fuel : nat)
    (skill_id : string) (current_path : list string) (visited : ref)
    (h : gmap ref (gset string)) (vs : gset string) (parent_ids : list string) :
  h !! visited = Some vs →
  skill_id ∉ vs →
  child_to_parents !! skill_id = Some parent_ids →
  parent_ids ≠ [] →
  (size (dom child_to_parents ∖ vs) < fuel)%nat →
  ∃ branches h',
    Forall2 (λ p parent_paths, ∃ hp,
               get_all_paths child_to_parents (S (size child_to_parents)) p
                 (Some (current_path ++ [p])) (Some 0%nat)
                 {[0%nat := {[skill_id]} ∪ vs]}
               = Ret (parent_paths, hp))
      parent_ids branches
    ∧ get_all_paths child_to_parents fuel skill_id (Some current_path)
        (Some visited) h
      = Ret (concat branches, h')
    ∧ h' !! visited = Some ({[skill_id]} ∪ vs)
    ∧ ∀ r, r ∈ dom h → r ≠ visited → h' !! r = h !! r.
Proof.
  intros Hv Hvis Hps Hne Hfuel.
  pose proof (lookup_total_correct _ _ _ Hv) as Hvt.
  assert (size (dom child_to_parents ∖ ({[skill_id]} ∪ vs))
          < size (dom child_to_parents ∖ vs))%nat as Hless.
  { apply subset_size. apply elem_of_dom_2 in Hps. set_solver. }
  assert (size (dom child_to_parents ∖ ({[skill_id]} ∪ vs))
          < S (size child_to_parents))%nat as Hfull.
  { rewrite <-size_dom. apply Nat.lt_succ_r, subseteq_size. set_solver. }
  set (branch := λ p, paths_spec child_to_parents (S (size child_to_parents)) p
                        (current_path ++ [p]) ({[skill_id]} ∪ vs)).
  destruct (get_all_paths_spec child_to_parents fuel skill_id current_path
              visited h) as (h' & Hrun & Hdom & Hframe & _ & Hadd);
    [by apply elem_of_dom_2 in Hv | by rewrite Hvt |].
  exists (branch <$> parent_ids), h'. split_and!.
  - apply Forall2_fmap_r, Forall_Forall2_diag, Forall_forall. intros p _.
    destruct (get_all_paths_spec child_to_parents (S (size child_to_parents)) p
                (current_path ++ [p]) 0%nat {[0%nat := {[skill_id]} ∪ vs]})
      as (hp & Hp & _).
    + rewrite dom_singleton_L. set_solver.
    + by rewrite lookup_total_singleton.
    + exists hp. by rewrite lookup_total_singleton in Hp.
  - rewrite Hrun, Hvt. do 2 f_equal.
    destruct fuel as [|fuel]; [lia |]. cbn.
    rewrite decide_False, Hps, decide_False by done.
    rewrite <-bind_concat. apply list_bind_ext; [| done].
    intros p. apply paths_spec_fuel; lia.
  - rewrite <-Hvt, <-Hadd; [| by rewrite Hvt | unfold no_parents; by rewrite Hps].
    apply lookup_lookup_total, elem_of_dom, Hdom. by apply elem_of_dom_2 in Hv.
  - done.
Qed.

Lemma sibling_branches_independent_witness :
  ∃ branches h',
    get_all_paths (load_hierarchy Scenario.tangle) 6 "A" (Some ["A"%string])
      (Some 0%nat) {[0%nat := ∅]}
    = Ret (concat branches, h').
Proof.
  destruct (sibling_branches_independent (load_hierarchy Scenario.tangle) 6 "A"
              ["A"%string] 0%nat {[0%nat := ∅]} ∅ ["B"; "C"]%string)
    as (branches & h' & _ & Hrun & _).
  - reflexivity.
  - apply not_elem_of_empty.
  - by vm_compute.
  - done.
  - vm_compute. lia.
  - exists branches, h'. exact Hrun.
Defined.

(** *** Labels *)

(** C9.  [label] returns the recorded label of an identifier, and the
    identifier itself when none is recorded; it is a total function.  The
    path string is the labels of the path's elements, in path order, with
    [" ; "] between neighbours; with the label table [{A: "Root Skill"}],
    the path [[B, A]] gives ["B ; Root Skill"]. *)
Theorem label_and_hierarchy_path :
  (∀ labels node_id l, labels !! node_id = Some l → label labels node_id = l)
  ∧ (∀ labels node_id, labels !! node_id = None → label labels node_id = node_id)
  ∧ (∀ labels, hierarchy_path labels [] = ""%string)
  ∧ (∀ labels x, hierarchy_path labels [x] = label labels x)
  ∧ (∀ labels x y rest,
       hierarchy_path labels (x :: y :: rest)
       = label labels x +:+ " ; " +:+ hierarchy_path labels (y :: rest))
  ∧ hierarchy_path {["A"%string := "Root Skill"%string]} ["B"; "A"]%string
    = "B ; Root Skill"%string.
Proof.
  split_and!.
  - intros labels node_id l Hl. unfold label. by rewrite Hl.
  - intros labels node_id Hl. unfold label. by rewrite Hl.
  - done.
  - done.
  - done.
  - by vm_compute.
Qed.

Lemma label_and_hierarchy_path_witness :
  label {["A"%string := "Root Skill"%string]} "A" = "Root Skill"%string
  ∧ label {["A"%string := "Root Skill"%string]} "B" = "B"%string.
Proof.
  split.
  - apply (proj1 label_and_hierarchy_path). reflexivity.
  - apply (proj1 (proj2 label_and_hierarchy_path)). reflexivity.
Defined.

End PathsFacts.

Module ScenarioFacts.
Import Depth Paths DepthFacts PathsFacts.

Lemma diamond_any_order (rows : list (string * string)) :
  rows ≡ₚ Scenario.diamond →
  build_parent_map rows = build_parent_map Scenario.diamond
  ∧ (paths (load_hierarchy rows) "D"
       = Ret [["D"; "B"; "A"]; ["D"; "C"; "A"]]%string
     ∨ paths (load_hierarchy rows) "D"
       = Ret [["D"; "C"; "A"]; ["D"; "B"; "A"]]%string).
Proof.
  intros Hperm. symmetry in Hperm. apply permutations_Permutation in Hperm.
  revert rows Hperm. apply Forall_forall.
  refine (bool_decide_unpack _ _). by vm_compute.
Qed.

(** C4.  For the edge set [{B→A, C→A, D→B, D→C}], in whatever order its
    edges are read and the parent sets enumerated: [depth(A) = 1],
    [depth(B) = depth(C) = 2], [depth(D) = 3], also when the four nodes are
    queried in one run; and [paths(D)] is made of the two paths [[D, B, A]]
    and [[D, C, A]], each once. *)
Theorem diamond_scenario iter (rows : list (string * string)) :
  enumerates iter →
  rows ≡ₚ Scenario.diamond →
  depth iter (build_parent_map rows) "A" = 1
  ∧ depth iter (build_parent_map rows) "B" = 2
  ∧ depth iter (build_parent_map rows) "C" = 2
  ∧ depth iter (build_parent_map rows) "D" = 3
  ∧ (∃ memo', add_level_column iter (build_parent_map rows)
                ["A"; "B"; "C"; "D"]%string ∅ []
              = Ret ([1; 2; 2; 3], memo', []))
  ∧ ∃ all_paths,
      paths (load_hierarchy rows) "D" = Ret all_paths
      ∧ all_paths ≡ₚ [["D"; "B"; "A"]; ["D"; "C"; "A"]]%string.
Proof.
  intros Hiter [-> Hpaths]%diamond_any_order.
  assert (acyclic_by Scenario.diamond_rank (build_parent_map Scenario.diamond))
    as Hrank by (refine (bool_decide_unpack _ _); by vm_compute).
  rewrite !(depth_lvl iter _ Scenario.diamond_rank Hiter Hrank).
  split_and!; [by vm_compute.. | |].
  - destruct (add_level_column_lvl iter _ _ Hiter Hrank
                ["A"; "B"; "C"; "D"]%string ∅ []) as (m' & ->).
    + intros k d. by rewrite lookup_empty.
    + exists m'. by vm_compute.
  - destruct Hpaths as [-> | ->]; eexists; (split; [done |]); [done |].
    apply Permutation_swap.
Qed.

Lemma diamond_scenario_witness :
  enumerates Scenario.ascending ∧ Scenario.diamond ≡ₚ Scenario.diamond
  ∧ depth Scenario.ascending (build_parent_map Scenario.diamond) "D" = 3.
Proof.
  assert (enumerates Scenario.ascending) as Hiter by (by intros k s).
  split_and!; [done | done |].
  apply (diamond_scenario Scenario.ascending Scenario.diamond Hiter (reflexivity _)).
Defined.

End ScenarioFacts.

(** * Further properties of the depth resolver *)

Module DepthMore.
Import Depth DepthFacts.

(** *** What [build_parent_map] stores *)

Lemma build_parent_map_from rows : ∀ parent_map child p,
  p ∈ parents (foldl add_edge parent_map rows) child →
  p ∈ parents parent_map child ∨ (child, p) ∈ rows.
Proof.
  induction rows as [|[c q] rows IH]; intros pm child p; cbn; [by left |].
  intros [Hp|Hp]%IH; [| right; by right].
  unfold parents, add_edge in Hp. cbn in Hp.
  rewrite lookup_insert in Hp. case_decide as Hc; cbn in Hp; [| by left].
  subst c. apply elem_of_union in Hp as [->%elem_of_singleton|Hp].
  - right. left.
  - by left.
Qed.

Lemma build_parent_map_entries rows : ∀ parent_map,
  map_Forall (λ _ ps, ps ≠ ∅) parent_map →
  map_Forall (λ _ ps, ps ≠ ∅) (foldl add_edge parent_map rows).
Proof.
  induction rows as [|[c q] rows IH]; intros pm Hpm; cbn; [done |].
  apply IH. unfold add_edge. cbn. apply map_Forall_insert_2; [set_solver | done].
Qed.

Lemma parents_build_parent_map (rows : list (string * string)) child p :
  p ∈ parents (build_parent_map rows) child ↔ (child, p) ∈ rows.
Proof.
  split.
  - intros [Hp|Hp]%build_parent_map_from; [| done].
    unfold parents in Hp. rewrite lookup_empty in Hp. set_solver.
  - intros Hp. apply build_parent_map_parents. by right.
Qed.

Lemma build_parent_map_nonempty (rows : list (string * string)) child :
  build_parent_map rows !! child ≠ Some ∅.
Proof.
  intros Hc.
  by apply (build_parent_map_entries rows ∅ (map_Forall_empty _)) in Hc.
Qed.

(** X1.  The index has [p] among the parents of [child] exactly when the
    row [(child, p)] occurs in the hierarchy file. *)
Theorem build_parent_map_parent_iff (rows : list (string * string)) child p :
  p ∈ parents (build_parent_map rows) child ↔ (child, p) ∈ rows.
Proof. apply parents_build_parent_map. Qed.

(** X2.  The keys of the index are the identifiers that occur as a child,
    and no key holds an empty set: for an index that [build_parent_map]
    made, a node is a root for [calculate_depth] exactly when it never
    occurs as a child. *)
Theorem build_parent_map_keys (rows : list (string * string)) child :
  (is_Some (build_parent_map rows !! child) ↔ child ∈ rows.*1)
  ∧ (parents (build_parent_map rows) child = ∅ ↔ child ∉ rows.*1)
  ∧ build_parent_map rows !! child ≠ Some ∅.
Proof.
  pose proof (build_parent_map_nonempty rows child) as Hne.
  assert (child ∈ rows.*1 ↔ ∃ p, p ∈ parents (build_parent_map rows) child) as Hin.
  { rewrite list_elem_of_fmap. split.
    - intros ([c p] & -> & Hr). exists p. by apply parents_build_parent_map.
    - intros (p & Hp%parents_build_parent_map). by exists (child, p). }
  split_and!; [| | done].
  - rewrite Hin. unfold parents. split.
    + intros [ps Hps]. rewrite Hps in *. cbn.
      apply set_choose_L. by intros ->.
    + intros (p & Hp). destruct (build_parent_map rows !! child); [done |].
      set_solver.
  - rewrite Hin. split.
    + intros Hps (p & Hp). rewrite Hps in Hp. set_solver.
    + intros Hno. apply leibniz_equiv. intros p. split; [| set_solver].
      intros Hp. destruct Hno. by exists p.
Qed.

(** X3.  The index depends on the set of rows only, not on their order or
    on how often a row is given. *)
Theorem build_parent_map_same_rows (rows rows' : list (string * string)) :
  (∀ r, r ∈ rows ↔ r ∈ rows') →
  build_parent_map rows = build_parent_map rows'.
Proof.
  intros Hsame.
  assert (∀ child, parents (build_parent_map rows) child
                   = parents (build_parent_map rows') child) as Hparents.
  { intros child. apply leibniz_equiv. intros p.
    by rewrite !parents_build_parent_map. }
  apply map_eq. intros child. specialize (Hparents child).
  pose proof (build_parent_map_nonempty rows child) as Hne.
  pose proof (build_parent_map_nonempty rows' child) as Hne'.
  unfold parents in Hparents.
  destruct (build_parent_map rows !! child) as [ps|],
           (build_parent_map rows' !! child) as [ps'|]; cbn in *;
    by simplify_eq.
Qed.

Lemma build_parent_map_same_rows_witness :
  build_parent_map [("D", "B"); ("B", "A"); ("D", "B")]%string
  = build_parent_map [("B", "A"); ("D", "B")]%string.
Proof.
  apply build_parent_map_same_rows. intros r.
  rewrite !elem_of_cons, !elem_of_nil. tauto.
Defined.

(** *** The memo table *)

Lemma max_over_acc_inv call (I : Z → state → Prop) parent_ids :
  (∀ p acc s d s', p ∈ parent_ids → call p s = Ret (d, s') →
     I acc s → I (Z.max acc d) s') →
  ∀ acc s m s', max_over call parent_ids acc s = Ret (m, s') → I acc s → I m s'.
Proof.
  induction parent_ids as [|p ps IH]; intros Hcall acc s m s' Hrun Hs.
  - cbn in Hrun. by simplify_eq.
  - cbn in Hrun. destruct (call p s) as [[d s1]| |] eqn:Hp; cbn in Hrun; try done.
    eapply (IH (λ q a t e t' Hq, Hcall q a t e t' (list_elem_of_further _ _ _ Hq)));
      [exact Hrun |].
    eapply Hcall; [left | done..].
Qed.

Section memo.
Context (iter : string → gset string → list string).
Context (parent_map : gmap string (gset string)).

(** What a call does to the memo table and to the output. *)
Lemma calculate_depth_memo fuel : ∀ n s d s',
  calculate_depth iter parent_map fuel n s = Ret (d, s') →
  memo s ⊆ memo s'
  ∧ (∀ k, k ∈ visited s → memo s' !! k = memo s !! k)
  ∧ (memo s' !! n = Some d
     ∨ (d = 1 ∧ n ∈ visited s ∧ memo s !! n = None))
  ∧ stdout s `prefix_of` stdout s'.
Proof.
  induction fuel as [|fuel IH]; intros n s d s' Hrun; [done |].
  cbn in Hrun. destruct (memo s !! n) as [d0|] eqn:Hn.
  { simplify_eq. split_and!; [done | done | by left | done]. }
  case_decide as Hvis.
  { simplify_eq. cbn. split_and!; [done | done | by right | by apply prefix_app_r]. }
  assert (∀ v, memo s ⊆ memo (set_memo n v s)
               ∧ (∀ k, k ∈ visited s →
                    memo (set_memo n v s) !! k = memo s !! k)
               ∧ memo (set_memo n v s) !! n = Some v) as Hroot.
  { intros v. cbn. split_and!.
    - by apply insert_subseteq.
    - intros k Hk. apply lookup_insert_ne. by intros ->.
    - apply lookup_insert_eq. }
  destruct (parent_map !! n) as [ps|] eqn:Hps.
  2:{ simplify_eq. destruct (Hroot 1) as (? & ? & ?). by split_and!; [| | left |]. }
  case_decide.
  { simplify_eq. destruct (Hroot 1) as (? & ? & ?). by split_and!; [| | left |]. }
  destruct (max_over _ _ _ _) as [[m s2]| |] eqn:Hloop; cbn in Hrun; try done.
  apply (max_over_acc_inv _
           (λ _ t, visited t = {[n]} ∪ visited s
                   ∧ memo s ⊆ memo t
                   ∧ (∀ k, k ∈ {[n]} ∪ visited s → memo t !! k = memo s !! k)
                   ∧ stdout s `prefix_of` stdout t)) in Hloop.
  - destruct Hloop as (Hv2 & Hsub & Hkeep & Hout).
    unfold visited_remove in Hrun. case_decide; cbn in Hrun; [| done].
    simplify_eq. cbn. split_and!; [| | left; apply lookup_insert_eq | done].
    + etrans; [exact Hsub |]. apply insert_subseteq.
      rewrite Hkeep by set_solver. done.
    + intros k Hk. rewrite lookup_insert_ne by (by intros ->).
      apply Hkeep. set_solver.
  - intros p acc t e t' _ Hp (Hvt & Hsub & Hkeep & Hout).
    pose proof (calculate_depth_visited _ _ _ _ _ _ _ Hp) as Hvt'.
    destruct (IH _ _ _ _ Hp) as (Hsub' & Hkeep' & _ & Hout').
    split_and!.
    + congruence.
    + by etrans.
    + intros k Hk. rewrite Hkeep' by (by rewrite Hvt). by apply Hkeep.
    + by etrans.
  - cbn. split_and!; [done | done | done | done].
Qed.

Lemma calculate_depth_again fuel n s d :
  memo s !! n = Some d →
  calculate_depth iter parent_map (S fuel) n s = Ret (d, s).
Proof. intros Hn. cbn. by rewrite Hn. Qed.
End memo.

(** X4.  A call never removes or overwrites a memoised depth, memoises no
    node that is on the recursion path, and only appends to the output. *)
Theorem calculate_depth_memo_grows iter parent_map fuel skill_id s d s' :
  calculate_depth iter parent_map fuel skill_id s = Ret (d, s') →
  memo s ⊆ memo s'
  ∧ (∀ k, k ∈ visited s → memo s' !! k = memo s !! k)
  ∧ stdout s `prefix_of` stdout s'.
Proof.
  intros Hrun.
  destruct (calculate_depth_memo _ _ _ _ _ _ _ Hrun) as (? & ? & _ & ?).
  done.
Qed.

Lemma calculate_depth_memo_grows_witness :
  ({["Q" := 7]} : gmap string Z) ⊆ {["Q" := 7; "X" := 3; "Y" := 2]}.
Proof.
  refine (proj1 (calculate_depth_memo_grows Scenario.ascending
                   (build_parent_map Scenario.cycle) 3 "X"
                   (State {["Q" := 7]} ∅ []) 3
                   (State {["Q" := 7; "X" := 3; "Y" := 2]} ∅
                      ["Warning: Cycle detected at X"%string]) _)).
  by vm_compute.
Defined.

(** X5.  Resolving the same node twice in one run gives the same depth: a
    query memoises the depth it returns, and asking again returns it from
    the memo table, changing nothing and printing nothing.  This holds on
    every edge index, cyclic ones included. *)
Theorem query_twice iter parent_map skill_id depth_memo out d s' :
  query iter parent_map skill_id depth_memo out = Ret (d, s') →
  memo s' !! skill_id = Some d
  ∧ query iter parent_map skill_id (memo s') (stdout s')
    = Ret (d, State (memo s') ∅ (stdout s')).
Proof.
  unfold query. intros Hrun.
  destruct (calculate_depth_memo _ _ _ _ _ _ _ Hrun)
    as (_ & _ & [Hn|(_ & Hvis & _)] & _); [| set_solver].
  split; [done |]. by apply calculate_depth_again.
Qed.

Lemma query_twice_witness :
  query Scenario.ascending (build_parent_map Scenario.cycle) "X"
    {["X" := 3; "Y" := 2]} ["Warning: Cycle detected at X"%string]
  = Ret (3, State {["X" := 3; "Y" := 2]} ∅ ["Warning: Cycle detected at X"%string]).
Proof.
  refine (proj2 (query_twice Scenario.ascending (build_parent_map Scenario.cycle)
                   "X" ∅ [] 3
                   (State {["X" := 3; "Y" := 2]} ∅
                      ["Warning: Cycle detected at X"%string]) _)).
  by vm_compute.
Defined.

(** *** Bounds on the levels *)

Section bounds.
Context (iter : string → gset string → list string).
Context (parent_map : gmap string (gset string)).

(** A memoised depth above 1 belongs to a key of the index, and a memoised
    depth above 2 sits one above another memoised depth. *)
Local Abbreviation chained := (λ m : gmap string Z,
  ∀ k d, m !! k = Some d →
    1 ≤ d
    ∧ (d = 1 ∨ (k ∈ dom parent_map
                ∧ (d = 2 ∨ ∃ p, m !! p = Some (d - 1))))).

Lemma chained_insert (m : gmap string Z) n d :
  chained m → m !! n = None →
  1 ≤ d →
  (d = 1 ∨ (n ∈ dom parent_map ∧ (d = 2 ∨ ∃ p, m !! p = Some (d - 1)))) →
  chained (<[n := d]> m).
Proof.
  intros Hm Hn Hd Hchain k e. rewrite lookup_insert.
  case_decide as Hk; [subst k |].
  - intros [= <-]. split; [done |].
    destruct Hchain as [?|(? & [?|(p & Hp)])];
      [by left | right; split; [done | by left] |].
    right. split; [done |]. right. exists p.
    rewrite lookup_insert_ne; [done |]. intros ->. by rewrite Hn in Hp.
  - intros He. destruct (Hm k e He) as [? [?|(? & [?|(p & Hp)])]];
      (split; [done |]); [by left | right; split; [done | by left] |].
    right. split; [done |]. right. exists p.
    rewrite lookup_insert_ne; [done |]. intros ->. by rewrite Hn in Hp.
Qed.

Lemma calculate_depth_chained fuel : ∀ n s d s',
  calculate_depth iter parent_map fuel n s = Ret (d, s') →
  chained (memo s) →
  chained (memo s') ∧ 1 ≤ d.
Proof.
  induction fuel as [|fuel IH]; intros n s d s' Hrun Hs; [done |].
  cbn in Hrun. destruct (memo s !! n) as [d0|] eqn:Hn.
  { simplify_eq. split; [done |]. by destruct (Hs n d Hn). }
  case_decide as Hvis; [by simplify_eq |].
  destruct (parent_map !! n) as [ps|] eqn:Hps.
  2:{ simplify_eq. cbn. split; [| done]. apply chained_insert; by auto. }
  case_decide.
  { simplify_eq. cbn. split; [| done]. apply chained_insert; by auto. }
  destruct (max_over _ _ _ _) as [[m s2]| |] eqn:Hloop; cbn in Hrun; try done.
  apply (max_over_acc_inv _
           (λ acc t, visited t = {[n]} ∪ visited s
                     ∧ chained (memo t) ∧ memo t !! n = None
                     ∧ 0 ≤ acc
                     ∧ (acc ≤ 1 ∨ ∃ p, memo t !! p = Some acc))) in Hloop.
  - destruct Hloop as (Hv2 & Hm2 & Hn2 & Hm & Hmax).
    unfold visited_remove in Hrun. case_decide; cbn in Hrun; [| done].
    simplify_eq. cbn. split; [| lia].
    apply chained_insert; [done | done | lia |].
    destruct (decide (m ≤ 0)); [left; lia |]. right.
    split; [by apply elem_of_dom_2 in Hps |].
    destruct Hmax as [?|(p & Hp)]; [left; lia |].
    right. exists p. by replace (m + 1 - 1) with m by lia.
  - intros p acc t e t' _ Hp (Hvt & Hmt & Hnt & Hacc & Hmax).
    destruct (IH _ _ _ _ Hp Hmt) as (Hmt' & He).
    destruct (calculate_depth_memo _ _ _ _ _ _ _ Hp)
      as (Hsub & Hkeep & Hres & _).
    split_and!.
    + by rewrite (calculate_depth_visited _ _ _ _ _ _ _ Hp).
    + done.
    + rewrite Hkeep; [done |]. rewrite Hvt. set_solver.
    + lia.
    + destruct (Z.max_spec acc e) as [[_ ->]|[_ ->]].
      * destruct Hres as [Hres|(-> & _)]; [right; by exists p | by left].
      * destruct Hmax as [?|(q & Hq)]; [by left |].
        right. exists q. by eapply lookup_weaken.
  - cbn. split_and!; [done | done | done | done | by left].
Qed.

Lemma chained_chain (m : gmap string Z) :
  chained m →
  ∀ (j : nat) k, m !! k = Some (Z.of_nat j + 2) →
    ∃ X : gset string,
      X ⊆ dom parent_map ∧ size X = S j
      ∧ ∀ x, x ∈ X → ∃ v, m !! x = Some v ∧ v ≤ Z.of_nat j + 2.
Proof.
  intros Hm. induction j as [|j IH]; intros k Hk.
  - destruct (Hm k _ Hk) as [_ [?|(Hdom & _)]]; [lia |].
    exists {[k]}. split_and!; [set_solver | by rewrite size_singleton |].
    intros x ->%elem_of_singleton. eexists. split; [exact Hk | lia].
  - destruct (Hm k _ Hk) as [_ [?|(Hdom & [?|(p & Hp)])]]; [lia | lia |].
    replace (Z.of_nat (S j) + 2 - 1) with (Z.of_nat j + 2) in Hp by lia.
    destruct (IH p Hp) as (X & Hsub & Hsize & Hvals).
    assert (k ∉ X) as Hfresh.
    { intros (v & Hv & Hle)%Hvals. rewrite Hk in Hv. simplify_eq. lia. }
    exists ({[k]} ∪ X). split_and!.
    + set_solver.
    + rewrite size_union by set_solver. by rewrite size_singleton, Hsize.
    + intros x [->%elem_of_singleton|(v & Hv & Hle)%Hvals]%elem_of_union.
      * eexists. split; [exact Hk | lia].
      * exists v. split; [done | lia].
Qed.

Lemma chained_bound (m : gmap string Z) k d :
  chained m → m !! k = Some d → 1 ≤ d ≤ Z.of_nat (size parent_map) + 1.
Proof.
  intros Hm Hk. destruct (Hm k d Hk) as [Hd _]. split; [done |].
  destruct (decide (d ≤ 1)); [lia |].
  replace d with (Z.of_nat (Z.to_nat (d - 2)) + 2) in Hk by lia.
  destruct (chained_chain m Hm _ _ Hk) as (X & Hsub%subseteq_size & Hsize & _).
  rewrite size_dom in Hsub. lia.
Qed.

Lemma query_chained n m out :
  chained m →
  ∃ d s', query iter parent_map n m out = Ret (d, s')
          ∧ chained (memo s')
          ∧ 1 ≤ d ≤ Z.of_nat (size parent_map) + 1.
Proof.
  intros Hm. unfold query.
  destruct (calculate_depth_returns iter parent_map (S (size parent_map)) n
              (State m ∅ out)) as (d & s' & Hrun & _).
  { cbn. rewrite difference_empty_L, size_dom. lia. }
  destruct (calculate_depth_chained _ _ _ _ _ Hrun Hm) as (Hm' & Hd).
  exists d, s'. split; [done |]. split; [done |].
  destruct (calculate_depth_memo _ _ _ _ _ _ _ Hrun)
    as (_ & _ & [Hn|(_ & Hvis & _)] & _); [| set_solver].
  by eapply chained_bound.
Qed.

Lemma add_level_column_chained ids : ∀ m out,
  chained m →
  ∃ levels m' out',
    add_level_column iter parent_map ids m out = Ret (levels, m', out')
    ∧ length levels = length ids
    ∧ Forall (λ d, 1 ≤ d ≤ Z.of_nat (size parent_map) + 1) levels
    ∧ chained m'.
Proof.
  induction ids as [|n ids IH]; intros m out Hm; cbn -[query].
  { exists [], m, out. split; [done |]. split; [done |]. by split. }
  destruct (query_chained n m out Hm) as (d & s' & -> & Hm' & Hd). cbn -[query].
  destruct (IH (memo s') (stdout s') Hm') as (levels & m'' & out' & -> & Hlen & Hall & Hm'').
  cbn. exists (d :: levels), m'', out'.
  split; [done |]. split; [cbn; by rewrite Hlen |]. split; [by constructor | done].
Qed.
End bounds.

(** X6.  On every edge index, cyclic ones included, a run of
    [add_level_column] returns one level per row, and every level it writes
    and every depth it memoises lies between 1 and the number of keys of
    the index plus one. *)
Theorem levels_bounded iter parent_map (ids : list string) :
  ∃ levels depth_memo out,
    add_level_column iter parent_map ids ∅ [] = Ret (levels, depth_memo, out)
    ∧ length levels = length ids
    ∧ Forall (λ d, 1 ≤ d ≤ Z.of_nat (size parent_map) + 1) levels
    ∧ map_Forall (λ _ d, 1 ≤ d ≤ Z.of_nat (size parent_map) + 1) depth_memo.
Proof.
  destruct (add_level_column_chained iter parent_map ids ∅ [])
    as (levels & m' & out' & Hrun & Hlen & Hall & Hm').
  { intros k d. by rewrite lookup_empty. }
  exists levels, m', out'. split; [done |]. split; [done |]. split; [done |].
  intros k d Hk. by eapply chained_bound.
Qed.

End DepthMore.

(** * Further properties of the path enumerator *)

Module PathsMore.
Import Paths Chains PathsFacts.

(** *** What [load_hierarchy] stores *)

Lemma load_hierarchy_from rows : ∀ child_to_parents child,
  default [] (foldl add_edge child_to_parents rows !! child)
  = default [] (child_to_parents !! child)
    ++ (filter (λ r, r.1 = child) rows).*2.
Proof.
  induction rows as [|[c q] rows IH]; intros m child.
  { cbn. by rewrite app_nil_r. }
  cbn [foldl]. rewrite IH, filter_cons. unfold add_edge. cbn [fst snd].
  rewrite lookup_insert. destruct (decide (c = child)) as [->|Hc]; cbn.
  - by rewrite <-app_assoc.
  - done.
Qed.

Lemma load_hierarchy_entries rows : ∀ child_to_parents,
  map_Forall (λ _ ps, ps ≠ []) child_to_parents →
  map_Forall (λ _ ps, ps ≠ []) (foldl add_edge child_to_parents rows).
Proof.
  induction rows as [|[c q] rows IH]; intros m Hm; cbn; [done |].
  apply IH. unfold add_edge. cbn. apply map_Forall_insert_2; [| done].
  by intros [_ ?]%app_eq_nil.
Qed.

Lemma load_hierarchy_parents (rows : list (string * string)) child :
  default [] (load_hierarchy rows !! child)
  = (filter (λ r, r.1 = child) rows).*2.
Proof.
  unfold load_hierarchy. rewrite load_hierarchy_from.
  by rewrite lookup_empty.
Qed.

Lemma load_hierarchy_nodup (rows : list (string * string)) :
  NoDup rows → map_Forall (λ _ ps, NoDup ps) (load_hierarchy rows).
Proof.
  intros Hrows child ps Hps. cbn.
  pose proof (load_hierarchy_parents rows child) as Heq.
  rewrite Hps in Heq. cbn in Heq. subst ps.
  apply NoDup_fmap_2_strong; [| by apply NoDup_filter].
  intros [c p] [c' p'] [Hc _]%list_elem_of_filter [Hc' _]%list_elem_of_filter.
  cbn in *. by intros; simplify_eq.
Qed.

(** X7.  [load_hierarchy] keeps, for every child, the parents of its rows
    in the order of the file, one entry per row; a child has an entry
    exactly when it has a row, so no entry is empty. *)
Theorem load_hierarchy_lookup (rows : list (string * string)) child :
  default [] (load_hierarchy rows !! child)
  = (filter (λ r, r.1 = child) rows).*2
  ∧ (is_Some (load_hierarchy rows !! child) ↔ child ∈ rows.*1)
  ∧ load_hierarchy rows !! child ≠ Some [].
Proof.
  pose proof (load_hierarchy_parents rows child) as Hps.
  assert (load_hierarchy rows !! child ≠ Some []) as Hne.
  { intros Hc.
    by apply (load_hierarchy_entries rows ∅ (map_Forall_empty _)) in Hc. }
  split_and!; [done | | done].
  split.
  - intros [ps Hc]. rewrite Hc in Hps. cbn in Hps.
    destruct ps as [|p ps]; [done |].
    assert (p ∈ (filter (λ r, r.1 = child) rows).*2) as Hp
      by (rewrite <-Hps; left).
    apply list_elem_of_fmap in Hp as ([c q] & _ & [Hc' Hr]%list_elem_of_filter).
    cbn in Hc'. subst c. apply list_elem_of_fmap. by exists (child, q).
  - intros ([c q] & -> & Hr)%list_elem_of_fmap. cbn [fst] in *.
    assert ((c, q) ∈ filter (λ r, r.1 = c) rows) as Hin
      by (by apply list_elem_of_filter).
    apply (list_elem_of_fmap_2 snd) in Hin. rewrite <-Hps in Hin.
    destruct (load_hierarchy rows !! c) as [ps|]; [done |].
    by apply not_elem_of_nil in Hin.
Qed.

(** *** The paths are the upward chains *)

Section chains.
Context (child_to_parents : gmap string (list string)).

Lemma paths_spec_chain_sound fuel : ∀ n init vs path,
  (∀ x, x ∈ vs ↔ x ∈ init) →
  path ∈ paths_spec child_to_parents fuel n (init ++ [n]) vs →
  ∃ mid l,
    path = init ++ mid ++ [l]
    ∧ head (mid ++ [l]) = Some n
    ∧ NoDup mid
    ∧ (∀ x, x ∈ mid → x ∉ init)
    ∧ follows_edges child_to_parents (mid ++ [l])
    ∧ (l ∈ init ∨ l ∈ mid ∨ no_parents child_to_parents l).
Proof.
  induction fuel as [|fuel IH]; intros n init vs path Hvs; cbn.
  { by intros ?%not_elem_of_nil. }
  assert (∀ P : Prop, P → (n ∈ init ∨ no_parents child_to_parents n) →
            path ∈ [init ++ [n]] →
            ∃ mid l, path = init ++ mid ++ [l] ∧ head (mid ++ [l]) = Some n
              ∧ NoDup mid ∧ (∀ x, x ∈ mid → x ∉ init)
              ∧ follows_edges child_to_parents (mid ++ [l])
              ∧ (l ∈ init ∨ l ∈ mid ∨ no_parents child_to_parents l)) as Hstop.
  { intros _ _ Hn ->%list_elem_of_singleton. exists [], n. cbn.
    split_and!; [done | done | constructor | by intros ? ?%not_elem_of_nil | done |].
    destruct Hn; by auto. }
  unfold no_parents in Hstop.
  case_decide as Hvis; [apply (Hstop True I); left; by apply Hvs |].
  destruct (child_to_parents !! n) as [ps|] eqn:Hps;
    [| apply (Hstop True I); by right].
  case_decide as Hnil; [apply (Hstop True I); by right |].
  clear Hstop. intros (p & Hpath & Hp)%list_elem_of_bind.
  apply (IH p (init ++ [n]) ({[n]} ∪ vs)) in Hpath
    as (mid & l & -> & Hhead & Hnodup & Hfresh & Hedges & Hend).
  2:{ intros x. rewrite elem_of_union, elem_of_singleton, elem_of_app,
        list_elem_of_singleton, Hvs. tauto. }
  exists (n :: mid), l. split_and!.
  - by rewrite <-!app_assoc.
  - done.
  - constructor; [| done]. intros Hn%Hfresh. apply Hn, elem_of_app. right. left.
  - intros x [->|Hx%Hfresh]%elem_of_cons.
    + by rewrite <-Hvs.
    + intros Hin. apply Hx, elem_of_app. by left.
  - cbn. destruct (mid ++ [l]) as [|b rest]; [done |]. cbn in Hhead.
    simplify_eq. split; [| done]. unfold edge. by rewrite Hps.
  - destruct Hend as [[Hl|Hl%list_elem_of_singleton]%elem_of_app|[Hl|Hl]].
    + by left.
    + subst l. right. left. left.
    + right. left. by right.
    + by right; right.
Qed.

Lemma paths_spec_chain_complete mid : ∀ fuel n init vs l,
  (∀ x, x ∈ vs ↔ x ∈ init) →
  (size (dom child_to_parents ∖ vs) < fuel)%nat →
  head (mid ++ [l]) = Some n →
  NoDup mid →
  (∀ x, x ∈ mid → x ∉ init) →
  follows_edges child_to_parents (mid ++ [l]) →
  (l ∈ init ∨ l ∈ mid ∨ no_parents child_to_parents l) →
  init ++ mid ++ [l] ∈ paths_spec child_to_parents fuel n (init ++ [n]) vs.
Proof.
  induction mid as [|m mid IH];
    intros [|fuel] n init vs l Hvs Hfuel Hhead Hnodup Hfresh Hedges Hend;
    try lia; cbn in Hhead; simplify_eq; cbn [paths_spec].
  - cbn. destruct Hend as [Hl|[Hl%not_elem_of_nil|Hl]]; [| done |].
    + rewrite decide_True by (by apply Hvs). left.
    + unfold no_parents in Hl. case_decide; [left |].
      destruct (child_to_parents !! n) as [ps|]; [| left]. cbn in Hl.
      subst ps. cbn. left.
  - apply NoDup_cons in Hnodup as [Hn Hnodup].
    rewrite decide_False by (rewrite Hvs; apply Hfresh; left).
    cbn in Hedges. destruct (mid ++ [l]) as [|p rest] eqn:Hrest.
    { by destruct mid. }
    destruct Hedges as [Hedge Hedges]. unfold edge in Hedge.
    destruct (child_to_parents !! n) as [ps|] eqn:Hps; cbn in Hedge;
      [| by apply not_elem_of_nil in Hedge].
    rewrite decide_False by (intros ->; by apply not_elem_of_nil in Hedge).
    apply list_elem_of_bind. exists p. split; [| done].
    replace (init ++ (n :: mid) ++ [l]) with ((init ++ [n]) ++ mid ++ [l])
      by (by rewrite <-app_assoc).
    apply IH.
    + intros x. rewrite elem_of_union, elem_of_singleton, elem_of_app,
        list_elem_of_singleton, Hvs. tauto.
    + assert (size (dom child_to_parents ∖ ({[n]} ∪ vs))
              < size (dom child_to_parents ∖ vs))%nat; [| lia].
      apply subset_size. apply elem_of_dom_2 in Hps.
      assert (n ∉ vs) by (rewrite Hvs; apply Hfresh; left). set_solver.
    + by rewrite Hrest.
    + done.
    + intros x Hx [Hin| ->%list_elem_of_singleton]%elem_of_app; [| done].
      revert Hin. apply Hfresh. by right.
    + by rewrite Hrest.
    + destruct Hend as [Hl|[[->|Hl]%elem_of_cons|Hl]].
      * left. apply elem_of_app. by left.
      * left. apply elem_of_app. right. left.
      * right. by left.
      * by right; right.
Qed.

Lemma paths_spec_chains n path :
  path ∈ paths_spec child_to_parents (S (size child_to_parents)) n [n] ∅
  ↔ upward_chain child_to_parents n path.
Proof.
  split.
  - intros (mid & l & -> & Hhead & Hnodup & _ & Hedges & Hend)%(paths_spec_chain_sound _ n [] ∅);
      [| set_solver].
    exists mid, l. cbn [app]. split; [done |]. split; [done |].
    split; [done |]. split; [done |].
    destruct Hend as [Hl%not_elem_of_nil|[Hl|Hl]]; by auto.
  - intros (mid & l & -> & Hhead & Hnodup & Hedges & Hend).
    apply (paths_spec_chain_complete mid _ n [] ∅ l).
    + set_solver.
    + rewrite difference_empty_L, size_dom. lia.
    + done.
    + done.
    + by intros x _ ?%not_elem_of_nil.
    + done.
    + destruct Hend; by auto.
Qed.
End chains.

(** X8.  [paths] returns exactly the upward chains from the queried node:
    a returned path starts at the node, climbs recorded edges through
    distinct nodes, and stops at the first node without recorded parents or
    already on the path; and every such chain is returned. *)
Theorem paths_are_the_upward_chains
    (child_to_parents : gmap string (list string)) (skill_id : string) :
  ∃ all_paths,
    paths child_to_parents skill_id = Ret all_paths
    ∧ ∀ path, path ∈ all_paths ↔ upward_chain child_to_parents skill_id path.
Proof.
  eexists. split; [apply paths_returns |]. apply paths_spec_chains.
Qed.

(** *** Length and multiplicity *)

Lemma follows_edges_keys (child_to_parents : gmap string (list string)) mid :
  ∀ l, follows_edges child_to_parents (mid ++ [l]) →
       ∀ x, x ∈ mid → x ∈ dom child_to_parents.
Proof.
  induction mid as [|m mid IH]; intros l Hedges x Hx.
  { by apply not_elem_of_nil in Hx. }
  cbn in Hedges. destruct (mid ++ [l]) as [|b rest] eqn:Hrest.
  { by destruct mid. }
  destruct Hedges as [Hedge Hedges]. apply elem_of_cons in Hx as [->|Hx].
  - unfold edge in Hedge. apply elem_of_dom.
    destruct (child_to_parents !! m); [done |]. by apply not_elem_of_nil in Hedge.
  - apply (IH l); [by rewrite Hrest | done].
Qed.

Lemma paths_spec_length (child_to_parents : gmap string (list string))
    (skill_id : string) path :
  path ∈ paths_spec child_to_parents (S (size child_to_parents)) skill_id
           [skill_id] ∅ →
  (length path ≤ size child_to_parents + 1)%nat.
Proof.
  intros (mid & l & -> & _ & Hnodup & Hedges & _)%paths_spec_chains.
  rewrite length_app. cbn.
  assert (length mid ≤ size child_to_parents)%nat; [| lia].
  rewrite <-size_dom, <-(size_list_to_set (C:=gset string) mid) by done.
  apply subseteq_size. intros x Hx%elem_of_list_to_set.
  by eapply follows_edges_keys.
Qed.

(** X9.  A returned path has at most one node more than the edge index has
    keys. *)
Theorem paths_length_bound (child_to_parents : gmap string (list string))
    (skill_id : string) :
  ∃ all_paths,
    paths child_to_parents skill_id = Ret all_paths
    ∧ Forall (λ path, (length path ≤ size child_to_parents + 1)%nat) all_paths.
Proof.
  eexists. split; [apply paths_returns |]. apply Forall_forall.
  apply paths_spec_length.
Qed.

Lemma paths_spec_nodup (child_to_parents : gmap string (list string)) fuel :
  map_Forall (λ _ ps, NoDup ps) child_to_parents →
  ∀ n cp vs, NoDup (paths_spec child_to_parents fuel n cp vs).
Proof.
  intros Hc2p. induction fuel as [|fuel IH]; intros n cp vs; cbn.
  { constructor. }
  case_decide; [apply NoDup_singleton |].
  destruct (child_to_parents !! n) as [ps|] eqn:Hps; [| apply NoDup_singleton].
  case_decide; [apply NoDup_singleton |].
  apply NoDup_bind; [| by auto | exact (Hc2p n ps Hps)].
  intros p1 p2 path _ _ [k1 ->]%paths_spec_prefix [k2 Heq]%paths_spec_prefix.
  rewrite <-!app_assoc in Heq. apply app_inv_head in Heq. by simplify_eq.
Qed.

(** X10.  When no child lists a parent twice, no path is returned twice;
    and [load_hierarchy] lists no parent twice when no row of the
    hierarchy file is repeated. *)
Theorem paths_without_repetition :
  (∀ (child_to_parents : gmap string (list string)) skill_id,
     map_Forall (λ _ ps, NoDup ps) child_to_parents →
     ∃ all_paths,
       paths child_to_parents skill_id = Ret all_paths ∧ NoDup all_paths)
  ∧ (∀ rows : list (string * string),
       NoDup rows → map_Forall (λ _ ps, NoDup ps) (load_hierarchy rows)).
Proof.
  split.
  - intros c2p n Hc2p. eexists. split; [apply paths_returns |].
    by apply paths_spec_nodup.
  - apply load_hierarchy_nodup.
Qed.

Lemma paths_without_repetition_witness :
  ∃ all_paths,
    paths (load_hierarchy Scenario.tangle) "A" = Ret all_paths
    ∧ NoDup all_paths.
Proof.
  apply (proj1 paths_without_repetition).
  apply (proj2 paths_without_repetition).
  refine (bool_decide_unpack _ _). by vm_compute.
Defined.

End PathsMore.

(** * Properties of the output table *)

Module TableFacts.
Import Paths Table.

(** *** Strings *)

Lemma string_app_cons a (s t : string) :
  String a s +:+ t = String a (s +:+ t).
Proof. reflexivity. Qed.

Lemma string_app_assoc (s t u : string) : (s +:+ t) +:+ u = s +:+ (t +:+ u).
Proof.
  induction s as [|a s IH]; [done |]. by rewrite !string_app_cons, IH.
Qed.

Lemma string_app_nil_r (s : string) : s +:+ "" = s.
Proof. induction s as [|a s IH]; [done |]. by rewrite string_app_cons, IH. Qed.

Lemma string_length_app (s t : string) :
  String.length (s +:+ t) = (String.length s + String.length t)%nat.
Proof.
  induction s as [|a s IH]; [done |]. rewrite string_app_cons. cbn.
  by rewrite IH.
Qed.

(** *** Column names *)

Lemma digits_of_uint d rest :
  (digits rest).1 = EmptyString →
  digits (NilEmpty.string_of_uint d +:+ rest)
  = (NilEmpty.string_of_uint d, (digits rest).2).
Proof.
  intros Hrest.
  induction d as [|d IH|d IH|d IH|d IH|d IH|d IH|d IH|d IH|d IH|d IH];
    cbn [NilEmpty.string_of_uint]; rewrite ?string_app_cons;
    cbn [digits]; rewrite ?IH; try done.
  change ("" +:+ rest) with rest.
  by rewrite <-Hrest, <-surjective_pairing.
Qed.

Lemma str_nonempty n : str n ≠ EmptyString.
Proof.
  unfold str. intros Hn.
  assert (Nat.to_uint n = Decimal.Nil) as Hnil
    by (by destruct (Nat.to_uint n)).
  pose proof (Unsigned.of_to n) as Hof. rewrite Hnil in Hof. cbn in Hof.
  subst n. done.
Qed.

Lemma int_str n : int (str n) = n.
Proof. unfold int, str. by rewrite NilEmpty.usu, Unsigned.of_to. Qed.

Lemma get_level_num_level_name level suffix :
  get_level_num (level_name level +:+ suffix) = level.
Proof.
  unfold get_level_num, level_name. rewrite !string_app_assoc.
  set (rest := (if decide (1 < level)%nat then "s" else "") +:+ "_up" +:+ suffix).
  assert (digits ("_level" +:+ rest) = (EmptyString, "_level" +:+ rest)) as Hrest
    by reflexivity.
  assert (String.prefix "_level" ("_level" +:+ rest) = true) as Hprefix
    by (apply String.prefix_correct; simpl; by destruct rest).
  unfold str at 1. rewrite digits_of_uint by (by rewrite Hrest).
  fold (str level). rewrite Hrest. cbn [snd].
  rewrite bool_decide_true by apply str_nonempty. rewrite Hprefix. cbn.
  apply int_str.
Qed.

Lemma level_name_inj j k : level_name j = level_name k → j = k.
Proof.
  intros Heq. apply (f_equal (λ s, get_level_num (s +:+ ""))) in Heq.
  cbv beta in Heq. by rewrite !get_level_num_level_name in Heq.
Qed.

Lemma label_name_inj j k :
  level_name j +:+ "_preferredlabel" = level_name k +:+ "_preferredlabel" →
  j = k.
Proof.
  intros Heq. apply (f_equal get_level_num) in Heq.
  by rewrite !get_level_num_level_name in Heq.
Qed.

Lemma level_name_not_label j k :
  level_name j ≠ level_name k +:+ "_preferredlabel".
Proof.
  intros Heq. pose proof (f_equal (λ s, get_level_num (s +:+ "")) Heq) as Hjk.
  cbv beta in Hjk. rewrite string_app_assoc, !get_level_num_level_name in Hjk.
  subst k.
  apply (f_equal String.length) in Heq.
  rewrite string_length_app in Heq. cbn [String.length] in Heq. lia.
Qed.

Lemma hierarchy_path_not_level k suffix :
  "hierarchy_path"%string ≠ level_name k +:+ suffix.
Proof.
  intros Heq. pose proof (f_equal get_level_num Heq) as Hk.
  rewrite get_level_num_level_name in Hk. subst k. by vm_compute in Heq.
Qed.

(** X11.  The level is read back from a column name: for every level and
    every text after the name, in particular for both columns of a level,
    [get_level_num] returns the level [level_name] was given; so no two
    levels share a column, and no level column is the label column of any
    level or the [hierarchy_path] column. *)
Theorem get_level_num_round_trip :
  (∀ level suffix, get_level_num (level_name level +:+ suffix) = level)
  ∧ (∀ level, get_level_num (level_name level) = level)
  ∧ (∀ j k, level_name j = level_name k → j = k)
  ∧ (∀ j k, level_name j ≠ level_name k +:+ "_preferredlabel")
  ∧ (∀ k suffix, "hierarchy_path"%string ≠ level_name k +:+ suffix).
Proof.
  split_and!.
  - apply get_level_num_level_name.
  - intros level. rewrite <-(string_app_nil_r (level_name level)).
    apply get_level_num_level_name.
  - apply level_name_inj.
  - apply level_name_not_label.
  - apply hierarchy_path_not_level.
Qed.

Lemma get_level_num_round_trip_witness : (10 = 10)%nat.
Proof.
  apply (proj1 (proj2 (proj2 get_level_num_round_trip)) 10%nat 10%nat).
  reflexivity.
Defined.

(** *** The order of the hierarchy columns *)

Lemma contains_app_r sub (s t : string) :
  contains sub t = true → contains sub (s +:+ t) = true.
Proof.
  intros Ht. induction s as [|a s IH]; [done |].
  rewrite string_app_cons. cbn [contains]. rewrite IH. apply orb_true_r.
Qed.

Lemma prefix_level rest : String.prefix "_level" ("_level" +:+ rest) = true.
Proof. apply String.prefix_correct. simpl. by destruct rest. Qed.

Lemma contains_prefix sub s : String.prefix sub s = true → contains sub s = true.
Proof. intros Hp. destruct s; cbn [contains]; by rewrite Hp. Qed.

Lemma contains_level_name level suffix :
  contains "_level" (level_name level +:+ suffix) = true.
Proof.
  unfold level_name. rewrite !string_app_assoc. apply contains_app_r.
  generalize ((if decide (1 < level)%nat then "s" else "") +:+ "_up" +:+ suffix).
  intros rest. apply contains_prefix, prefix_level.
Qed.

Lemma contains_preferredlabel_digits d rest :
  contains "preferredlabel" (NilEmpty.string_of_uint d +:+ rest)
  = contains "preferredlabel" rest.
Proof.
  induction d as [|d IH|d IH|d IH|d IH|d IH|d IH|d IH|d IH|d IH|d IH];
    [done | ..];
    cbn [NilEmpty.string_of_uint]; rewrite string_app_cons;
    cbn [contains]; rewrite IH;
    (match goal with
     | |- String.prefix ?p ?s || _ = _ =>
         destruct (String.prefix p s) eqn:Hp; [| done];
         apply String.prefix_correct in Hp; simpl in Hp; discriminate
     end).
Qed.

Lemma contains_preferredlabel_level_name level :
  contains "preferredlabel" (level_name level) = false
  ∧ contains "preferredlabel" (level_name level +:+ "_preferredlabel") = true.
Proof.
  split.
  - unfold level_name, str. rewrite contains_preferredlabel_digits.
    by destruct (decide (1 < level)%nat).
  - by apply contains_app_r.
Qed.

Lemma filter_all {A} (P : A → Prop) `{∀ x, Decision (P x)} (l : list A) :
  Forall P l → filter P l = l.
Proof.
  induction 1 as [|x l Hx _ IH]; [done |].
  by rewrite filter_cons, decide_True, IH.
Qed.

Lemma filter_none {A} (P : A → Prop) `{∀ x, Decision (P x)} (l : list A) :
  Forall (λ x, ¬ P x) l → filter P l = [].
Proof.
  induction 1 as [|x l Hx _ IH]; [done |].
  by rewrite filter_cons, decide_False, IH.
Qed.

Section sorting.
Context (key : string → nat).
Local Abbreviation by_key := (λ a b : string, (key a ≤ key b)%nat).

Lemma insert_by_Permutation col cols : insert_by key col cols ≡ₚ col :: cols.
Proof.
  induction cols as [|c cols IH]; cbn; [done |].
  case_decide; [done |]. by rewrite IH, Permutation_swap.
Qed.

Lemma sorted_by_Permutation cols : sorted_by key cols ≡ₚ cols.
Proof.
  induction cols as [|c cols IH]; cbn; [done |].
  by rewrite insert_by_Permutation, IH.
Qed.

Lemma insert_by_Sorted col cols :
  Sorted by_key cols → Sorted by_key (insert_by key col cols).
Proof.
  induction 1 as [|c cols Hsorted IH Hhd]; cbn.
  { by repeat constructor. }
  case_decide as Hle.
  - constructor; [by constructor |]. by constructor.
  - constructor; [exact IH |].
    destruct Hhd as [|c' cols' Hc']; cbn.
    + constructor. lia.
    + case_decide; constructor; lia.
Qed.

Lemma sorted_by_Sorted cols : Sorted by_key (sorted_by key cols).
Proof.
  induction cols as [|c cols IH]; cbn; [constructor |].
  by apply insert_by_Sorted.
Qed.

Lemma Sorted_seq start len : Sorted le (seq start len).
Proof.
  revert start. induction len as [|len IH]; intros start; cbn; [constructor |].
  constructor; [apply IH |]. destruct len; constructor. lia.
Qed.

Lemma sorted_by_names (name : nat → string) m cols :
  (∀ k, key (name k) = k) →
  cols ≡ₚ name <$> seq 1 m →
  sorted_by key cols = name <$> seq 1 m.
Proof.
  intros Hkey Hperm.
  assert (Transitive by_key) as Htrans by (intros a b c; cbn; lia).
  apply (StronglySorted_unique_strong by_key).
  - intros x1 x2 Hx1 (k2 & -> & _)%list_elem_of_fmap.
    rewrite sorted_by_Permutation, Hperm in Hx1.
    apply list_elem_of_fmap in Hx1 as (k1 & -> & _).
    rewrite !Hkey. intros. f_equal. lia.
  - apply Sorted_StronglySorted; [done |]. apply sorted_by_Sorted.
  - apply (StronglySorted_fmap _ le).
    + intros j k Hjk. by rewrite !Hkey.
    + apply Sorted_StronglySorted; [apply _ |]. apply Sorted_seq.
  - by rewrite sorted_by_Permutation.
Qed.
End sorting.

Lemma foldl_pairs {A} (f g : A → string) (l : list A) : ∀ ordered,
  foldl (λ ordered (pair : string * string), ordered ++ [pair.1; pair.2])
    ordered (zip (f <$> l) (g <$> l))
  = ordered ++ (l ≫= λ k, [f k; g k]).
Proof.
  induction l as [|k l IH]; intros ordered; cbn.
  { by rewrite app_nil_r. }
  rewrite IH. by rewrite <-app_assoc.
Qed.

(** X17.  When the columns of the table that have ["_level"] in their name
    are the level column and the label column of the levels 1 to [m], in
    whatever order the table has them, [ordered_hierarchy_cols] lists them
    by level number, 1 to [m] (10 after 9, not after 1), the level column
    of each level followed by its label column. *)
Theorem ordered_hierarchy_cols_by_level (columns : list string) (m : nat) :
  filter (λ col, contains "_level" col) columns
  ≡ₚ (level_name <$> seq 1 m)
     ++ ((λ k, level_name k +:+ "_preferredlabel") <$> seq 1 m) →
  ordered_hierarchy_cols columns
  = seq 1 m ≫= λ k, [level_name k; level_name k +:+ "_preferredlabel"].
Proof.
  intros Hperm. unfold ordered_hierarchy_cols.
  set (label_name := λ k, level_name k +:+ "_preferredlabel") in *.
  assert (Forall (λ col, ¬ contains "preferredlabel" col)
            (level_name <$> seq 1 m)) as Hids.
  { apply Forall_fmap, Forall_forall. intros k _. unfold compose.
    rewrite (proj1 (contains_preferredlabel_level_name k)). by intros ?. }
  assert (Forall (λ col, contains "preferredlabel" col)
            (label_name <$> seq 1 m)) as Hlabels.
  { apply Forall_fmap, Forall_forall. intros k _. unfold compose, label_name.
    by rewrite (proj2 (contains_preferredlabel_level_name k)). }
  rewrite (sorted_by_names get_level_num level_name m).
  - rewrite (sorted_by_names get_level_num label_name m).
    + by rewrite (foldl_pairs level_name label_name).
    + intros k. apply get_level_num_level_name.
    + rewrite Hperm, filter_app, filter_none, (filter_all _ _ Hlabels); [done |].
      eapply Forall_impl; [exact Hids |]. cbn. by intros col Hcol.
  - intros k. rewrite <-(string_app_nil_r (level_name k)).
    apply get_level_num_level_name.
  - rewrite Hperm, filter_app, (filter_all _ _ Hids), filter_none.
    + by rewrite app_nil_r.
    + eapply Forall_impl; [exact Hlabels |]. cbn. by intros col Hcol Hno.
Qed.

Lemma ordered_hierarchy_cols_by_level_witness :
  ordered_hierarchy_cols
    ["ID"; "2_levels_up_preferredlabel"; "1_level_up"; "hierarchy_path";
     "1_level_up_preferredlabel"; "2_levels_up"]%string
  = ["1_level_up"; "1_level_up_preferredlabel";
     "2_levels_up"; "2_levels_up_preferredlabel"]%string.
Proof.
  apply (ordered_hierarchy_cols_by_level
           ["ID"; "2_levels_up_preferredlabel"; "1_level_up"; "hierarchy_path";
            "1_level_up_preferredlabel"; "2_levels_up"]%string 2).
  apply (bool_decide_unpack _). by vm_compute.
Defined.

(** *** The label table *)

Lemma foldl_insert_lookup (rows : list (string * string)) :
  ∀ (labels : gmap string string) node_id,
    foldl (λ labels row, <[row.1 := row.2]> labels) labels rows !! node_id
    = match last (filter (λ r, r.1 = node_id) rows).*2 with
      | Some l => Some l
      | None => labels !! node_id
      end.
Proof.
  induction rows as [|[k v] rows IH]; intros labels node_id; [done |].
  cbn [foldl]. rewrite IH, filter_cons. cbn [fst snd].
  rewrite lookup_insert. destruct (decide (k = node_id)) as [->|Hk].
  - rewrite fmap_cons, last_cons. cbn [snd]. by destruct (last _).
  - done.
Qed.

(** X12.  The label table holds, for every identifier, the label of the
    last row that has it, the rows of the skill groups file counting as
    later than those of the skills file: a skill group's label replaces a
    skill's label for the same identifier, and an identifier without a row
    has no entry, so that [label] falls back to the identifier. *)
Theorem load_labels_lookup (skills skillgroups : list (string * string))
    (node_id : string) :
  load_labels skills skillgroups !! node_id
  = last (filter (λ r, r.1 = node_id) (skills ++ skillgroups)).*2
  ∧ (node_id ∉ (skills ++ skillgroups).*1 →
     label (load_labels skills skillgroups) node_id = node_id)
  ∧ (∀ l, (node_id, l) ∈ skillgroups →
     ∃ l', (node_id, l') ∈ skillgroups
           ∧ label (load_labels skills skillgroups) node_id = l').
Proof.
  assert (load_labels skills skillgroups !! node_id
          = last (filter (λ r, r.1 = node_id) (skills ++ skillgroups)).*2) as Heq.
  { unfold load_labels. rewrite <-foldl_app, foldl_insert_lookup.
    rewrite lookup_empty. by destruct (last _). }
  split_and!; [done | |].
  - intros Hno. unfold label. rewrite Heq.
    destruct (filter (λ r, r.1 = node_id) (skills ++ skillgroups))
      as [|[k v] rest] eqn:Hf; [done |].
    assert ((k, v) ∈ filter (λ r, r.1 = node_id) (skills ++ skillgroups))
      as [Hk Hin]%list_elem_of_filter by (rewrite Hf; left).
    cbn in Hk. subst k. destruct Hno. apply list_elem_of_fmap.
    by exists (node_id, v).
  - intros l Hl. unfold label. rewrite Heq, filter_app, fmap_app, last_app.
    assert ((node_id, l) ∈ filter (λ r, r.1 = node_id) skillgroups) as Hin
      by (by apply list_elem_of_filter).
    destruct (last (filter (λ r, r.1 = node_id) skillgroups).*2)
      as [l'|] eqn:Hlast.
    + exists l'. split; [| done].
      apply last_Some_elem_of, list_elem_of_fmap in Hlast
        as ([k v] & -> & [Hk Hv]%list_elem_of_filter).
      cbn in Hk. by subst k.
    + apply last_None, fmap_nil_inv in Hlast. rewrite Hlast in Hin.
      by apply not_elem_of_nil in Hin.
Qed.

Lemma load_labels_lookup_witness :
  label (load_labels [("A", "a skill")]%string
           [("A", "a group"); ("G", "another")]%string) "Z"
  = "Z"%string.
Proof.
  apply (proj1 (proj2 (load_labels_lookup [("A", "a skill")]%string
            [("A", "a group"); ("G", "another")]%string "Z"))).
  intros Hin%list_elem_of_In. cbn in Hin. by destruct Hin as [|[|[|]]].
Defined.

(** *** The row of a path *)

Lemma foldl_add_level labels path levels : ∀ row0 : gmap string string,
  NoDup levels →
  (∀ k, k ∈ levels → (k < length path)%nat) →
  ∃ row,
    foldl (add_level labels path) (Some row0) levels = Some row
    ∧ (∀ k, k ∈ levels →
         ∃ parent_id,
           path !! k = Some parent_id
           ∧ row !! level_name k = Some parent_id
           ∧ row !! (level_name k +:+ "_preferredlabel")
             = Some (default ""%string (labels !! parent_id)))
    ∧ (∀ col,
         (∀ k, k ∈ levels →
               col ≠ level_name k ∧ col ≠ level_name k +:+ "_preferredlabel") →
         row !! col = row0 !! col).
Proof.
  induction levels as [|k levels IH]; intros row0 Hnodup Hrange.
  { exists row0. split; [done |]. split; [| done].
    by intros k ?%not_elem_of_nil. }
  apply NoDup_cons in Hnodup as [Hk Hnodup].
  destruct (lookup_lt_is_Some_2 path k) as [parent_id Hpid];
    [apply Hrange; left |].
  set (row1 := <[level_name k +:+ "_preferredlabel"
                 := default ""%string (labels !! parent_id)]>
                 (<[level_name k := parent_id]> row0)).
  destruct (IH row1 Hnodup) as (row & Hrun & Hlevels & Hother).
  { intros j Hj. apply Hrange. by right. }
  exists row. split.
  { cbn [foldl]. unfold add_level at 2. cbn. rewrite Hpid. cbn. exact Hrun. }
  assert (∀ j, j ∈ levels → j ≠ k) as Hne by (by intros j Hj ->).
  split.
  - intros j [->|Hj]%elem_of_cons; [| by apply Hlevels].
    exists parent_id. split; [done |]. split.
    + rewrite Hother.
      * unfold row1. rewrite lookup_insert_ne by (intros Heq; symmetry in Heq;
          by apply level_name_not_label in Heq).
        apply lookup_insert_eq.
      * intros i Hi. split; [| apply level_name_not_label].
        intros Heq%level_name_inj. by apply (Hne i).
    + rewrite Hother; [apply lookup_insert_eq |].
      intros i Hi. split.
      * intros Heq. symmetry in Heq. by apply level_name_not_label in Heq.
      * intros Heq%label_name_inj. by apply (Hne i).
  - intros col Hcol. rewrite Hother.
    + destruct (Hcol k) as [Hc1 Hc2]; [left |].
      unfold row1. by rewrite !lookup_insert_ne.
    + intros j Hj. apply Hcol. by right.
Qed.

(** X13.  The row of a path is always built ([path[level]] is never out of
    range).  Its column for level [k], for every [k] from 1 below the
    length of the path, holds the [k]-th element of the path, and the label
    column of that level holds its label, or the empty text when it has
    none (not the identifier, as in the path string); [hierarchy_path]
    holds the path string; every other column is as in the skill's row. *)
Theorem path_row_columns (labels skill_row : gmap string string)
    (path : list string) :
  ∃ row,
    path_row labels skill_row path = Some row
    ∧ (∀ level parent_id,
         (1 ≤ level)%nat → path !! level = Some parent_id →
         row !! level_name level = Some parent_id
         ∧ row !! (level_name level +:+ "_preferredlabel")
           = Some (default ""%string (labels !! parent_id)))
    ∧ row !! "hierarchy_path"%string = Some (hierarchy_path labels path)
    ∧ (∀ col,
         col ≠ "hierarchy_path"%string →
         (∀ level, (1 ≤ level < length path)%nat →
            col ≠ level_name level
            ∧ col ≠ level_name level +:+ "_preferredlabel") →
         row !! col = skill_row !! col).
Proof.
  destruct (foldl_add_level labels path (seq 1 (length path - 1)) skill_row)
    as (row & Hrun & Hlevels & Hother).
  { apply NoDup_seq. }
  { intros k Hk%elem_of_seq. lia. }
  exists (<["hierarchy_path"%string := hierarchy_path labels path]> row).
  split; [unfold path_row; by rewrite Hrun |]. split; [| split].
  - intros level parent_id Hlevel Hpid.
    destruct (Hlevels level) as (parent_id' & Hpid' & Hname & Hlabel).
    { apply elem_of_seq. apply lookup_lt_Some in Hpid. lia. }
    simplify_eq. split.
    + rewrite lookup_insert_ne; [done |].
      rewrite <-(string_app_nil_r (level_name level)).
      apply hierarchy_path_not_level.
    + rewrite lookup_insert_ne; [done |]. apply hierarchy_path_not_level.
  - apply lookup_insert_eq.
  - intros col Hcol Hlevel. rewrite lookup_insert_ne by done.
    apply Hother. intros k Hk%elem_of_seq. apply Hlevel. lia.
Qed.

Lemma path_row_columns_witness :
  ∃ row,
    path_row {["A"%string := "Root Skill"%string]} {["ID"%string := "D"%string]}
      ["D"; "B"; "A"]%string = Some row
    ∧ row !! "1_level_up"%string = Some "B"%string
    ∧ row !! "1_level_up_preferredlabel"%string = Some ""%string
    ∧ row !! "ID"%string = Some "D"%string.
Proof.
  destruct (path_row_columns {["A"%string := "Root Skill"%string]}
              {["ID"%string := "D"%string]} ["D"; "B"; "A"]%string)
    as (row & Hrow & Hlevels & _ & Hother).
  exists row. split; [exact Hrow |].
  destruct (Hlevels 1%nat "B"%string) as [H1 H2]; [lia | reflexivity |].
  split; [exact H1 |]. split; [exact H2 |].
  rewrite Hother; [reflexivity | discriminate |].
  intros level Hlevel. cbn in Hlevel.
  assert (level = 1 ∨ level = 2)%nat as [-> | ->] by lia;
    split; discriminate.
Defined.

(** *** The loop over the skills *)











End TableFacts.

(** * Properties of the level distribution *)

Module StatisticsFacts.
Import Depth Statistics.

Lemma total_count_level (counts : gmap Z nat) depth :
  total (count_level counts depth) = S (total counts).
Proof.
  unfold total, count_level.
  assert (∀ (m : gmap Z nat) (j1 j2 : Z) (z1 z2 y : nat),
            j1 ≠ j2 → m !! j1 = Some z1 → m !! j2 = Some z2 →
            (z1 + (z2 + y) = z2 + (z1 + y))%nat) as Hcomm by (intros; lia).
  destruct (counts !! depth) as [c|] eqn:Hc; cbn.
  - rewrite <-insert_delete_eq.
    rewrite map_fold_insert_L; [| by eauto | apply lookup_delete_eq].
    rewrite (map_fold_delete_L _ _ depth c counts); [lia | by eauto | done].
  - rewrite map_fold_insert_L; [lia | by eauto | done].
Qed.

Lemma level_counts_snoc depths depth :
  level_counts (depths ++ [depth]) = count_level (level_counts depths) depth.
Proof. unfold level_counts. by rewrite foldl_app. Qed.

Lemma level_counts_lookup depths level :
  default 0%nat (level_counts depths !! level)
  = length (filter (λ d, d = level) depths).
Proof.
  induction depths as [|d depths IH] using rev_ind; [done |].
  rewrite level_counts_snoc, filter_app, length_app. unfold count_level.
  rewrite lookup_insert, filter_cons, filter_nil.
  destruct (decide (d = level)) as [->|Hd]; cbn.
  - rewrite IH. lia.
  - rewrite IH. lia.
Qed.

Lemma level_counts_positive depths :
  map_Forall (λ _ count, (0 < count)%nat) (level_counts depths).
Proof.
  induction depths as [|d depths IH] using rev_ind.
  { apply map_Forall_empty. }
  rewrite level_counts_snoc. apply map_Forall_insert_2; [lia | done].
Qed.

(** X16.  The level distribution counts every memoised node once: a level
    has an entry exactly when some memoised depth equals it, the entry is
    the number of memoised nodes at that level, and the counts add up to
    the size of the memo table, whatever the order in which the dictionary
    yields its values. *)
Theorem level_counts_spec (depth_memo : gmap string Z) (depths : list Z) :
  depths ≡ₚ (map_to_list depth_memo).*2 →
  (∀ level,
     level_counts depths !! level
     = if decide (level ∈ depths)
       then Some (length (filter (λ d, d = level) depths))
       else None)
  ∧ (∀ level, level ∈ depths ↔ ∃ k, depth_memo !! k = Some level)
  ∧ total (level_counts depths) = size depth_memo.
Proof.
  intros Hperm. split; [| split].
  - intros level. pose proof (level_counts_lookup depths level) as Hcount.
    pose proof (level_counts_positive depths level) as Hpos.
    destruct (level_counts depths !! level) as [c|] eqn:Hc; cbn in Hcount.
    + specialize (Hpos c eq_refl). cbn in Hpos.
      rewrite decide_True; [by rewrite Hcount |].
      assert (filter (λ d, d = level) depths ≠ []) as Hne
        by (intros Hnil; rewrite Hnil in Hcount; cbn in Hcount; lia).
      destruct (filter (λ d, d = level) depths) as [|d ds] eqn:Hf; [done |].
      assert (d ∈ filter (λ d, d = level) depths)
        as [-> ?]%list_elem_of_filter by (rewrite Hf; left).
      done.
    + rewrite decide_False; [done |]. intros Hin.
      assert (level ∈ filter (λ d, d = level) depths) as Hf
        by (by apply list_elem_of_filter).
      destruct (filter (λ d, d = level) depths); [| done].
      by apply not_elem_of_nil in Hf.
  - intros level. rewrite Hperm, list_elem_of_fmap. split.
    + intros ([k d] & -> & Hk%elem_of_map_to_list). by exists k.
    + intros (k & Hk). exists (k, level). split; [done |].
      by apply elem_of_map_to_list.
  - transitivity (length depths).
    + clear Hperm. induction depths as [|d depths IH] using rev_ind; [done |].
      rewrite level_counts_snoc, total_count_level, IH, length_app. cbn. lia.
    + by rewrite Hperm, length_fmap, length_map_to_list.
Qed.

Lemma level_counts_spec_witness :
  total (level_counts [3; 2; 2; 1]) = size ({["A" := 1; "B" := 2; "C" := 2; "D" := 3]} : gmap string Z).
Proof.
  apply (level_counts_spec {["A" := 1; "B" := 2; "C" := 2; "D" := 3]} [3; 2; 2; 1]).
  apply (bool_decide_unpack _). by vm_compute.
Defined.

End StatisticsFacts.

(** * The two scripts on one hierarchy file *)

Module LevelsAndPaths.
Import Depth Paths Chains DepthFacts PathsFacts.
#[local] Arguments Depth.lvl : simpl never.

Lemma foldr_max_nonneg (ds : list Z) : 0 ≤ foldr Z.max 0 ds.
Proof. induction ds; cbn; lia. Qed.

Lemma foldr_max_le (ds ds' : list Z) :
  (∀ d, d ∈ ds → ∃ d', d' ∈ ds' ∧ d ≤ d') →
  foldr Z.max 0 ds ≤ foldr Z.max 0 ds'.
Proof.
  induction ds as [|d ds IH]; intros Hle; cbn; [apply foldr_max_nonneg |].
  apply Z.max_lub.
  - destruct (Hle d) as (d' & Hd' & Hdd'); [left |].
    etrans; [exact Hdd' |]. by apply foldr_max_ub.
  - apply IH. intros e He. apply Hle. by right.
Qed.

Lemma foldr_max_same_elements {A} (f : A → Z) (l l' : list A) :
  (∀ x, x ∈ l ↔ x ∈ l') →
  foldr Z.max 0 (f <$> l) = foldr Z.max 0 (f <$> l').
Proof.
  intros Hsame. apply Z.le_antisymm; apply foldr_max_le;
    intros d (x & -> & Hx)%list_elem_of_fmap; exists (f x);
    (split; [| done]); apply list_elem_of_fmap; exists x;
    (split; [done |]); by apply Hsame.
Qed.

Lemma foldr_max_bind {A B} (g : B → Z) (F : A → list B) (l : list A) :
  foldr Z.max 0 (g <$> (l ≫= F))
  = foldr Z.max 0 ((λ x, foldr Z.max 0 (g <$> F x)) <$> l).
Proof.
  induction l as [|x l IH]; [done |].
  rewrite bind_cons, fmap_app, fmap_cons. cbn [foldr]. rewrite <-IH.
  generalize (g <$> F x) (g <$> (l ≫= F)). intros ds es.
  induction ds as [|d ds IHds]; cbn.
  - pose proof (foldr_max_nonneg es). lia.
  - rewrite IHds. lia.
Qed.

Lemma foldr_max_shift {A} (f : A → Z) (c : Z) (l : list A) :
  l ≠ [] → 0 ≤ c → (∀ x, 0 ≤ f x) →
  foldr Z.max 0 ((λ x, c + f x) <$> l) = c + foldr Z.max 0 (f <$> l).
Proof.
  intros Hne Hc Hf. induction l as [|x l IH]; [done |].
  destruct l as [|y l].
  - cbn. specialize (Hf x). lia.
  - specialize (IH ltac:(done)). rewrite (fmap_cons _ x), (fmap_cons f x).
    cbn [foldr]. rewrite IH. lia.
Qed.

Lemma max_list_with_length_Z (all_paths : list (list string)) :
  Z.of_nat (max_list_with length all_paths)
  = foldr Z.max 0 ((λ path, Z.of_nat (length path)) <$> all_paths).
Proof. induction all_paths as [|path l IH]; cbn; [done |]. lia. Qed.

Section one_file.
Context (rows : list (string * string)) (rank : string → nat).
Hypothesis rank_decreases : acyclic_by rank (build_parent_map rows).
Local Abbreviation parent_map := (build_parent_map rows).
Local Abbreviation child_to_parents := (load_hierarchy rows).
Local Abbreviation lvl := (Depth.lvl parent_map rank).

Lemma same_parents n p :
  p ∈ default [] (child_to_parents !! n) ↔ p ∈ parents parent_map n.
Proof.
  rewrite PathsMore.load_hierarchy_parents, DepthMore.parents_build_parent_map.
  rewrite list_elem_of_fmap. split.
  - intros ([c q] & -> & [Hc Hr]%list_elem_of_filter). cbn in *. by subst c.
  - intros Hr. exists (n, p). split; [done |]. by apply list_elem_of_filter.
Qed.

Lemma longest_path fuel : ∀ n cp vs,
  (size (dom child_to_parents ∖ vs) < fuel)%nat →
  (∀ v, v ∈ vs → (rank n < rank v)%nat) →
  foldr Z.max 0
    ((λ path, Z.of_nat (length path))
       <$> paths_spec child_to_parents fuel n cp vs)
  = Z.of_nat (length cp) + lvl n - 1.
Proof.
  induction fuel as [|fuel IH]; intros n cp vs Hfuel Hrank; [lia |].
  pose proof (lvl_unfold _ _ rank_decreases n) as Hn.
  cbn [paths_spec]. rewrite decide_False by (intros Hv%Hrank; lia).
  assert (parents parent_map n = ∅ → lvl n = 1) as Hroot
    by (intros He; by rewrite Hn, decide_True).
  pose proof (same_parents n) as Hsame.
  destruct (child_to_parents !! n) as [ps|] eqn:Hps; cbn in Hsame.
  2:{ cbn. rewrite Hroot; [lia |]. apply leibniz_equiv. intros p.
      rewrite <-Hsame. set_solver. }
  destruct (decide (ps = [])) as [->|Hnil].
  { cbn. rewrite Hroot; [lia |]. apply leibniz_equiv. intros p.
    rewrite <-Hsame. set_solver. }
  rewrite decide_False in Hn.
  2:{ destruct ps as [|p ps]; [done |]. intros He.
      assert (p ∈ parents parent_map n) as Hp by (apply Hsame; left).
      rewrite He in Hp. set_solver. }
  rewrite foldr_max_bind.
  rewrite (list_fmap_ext _ (λ p, (Z.of_nat (length cp) + 1) + (lvl p - 1)) ps).
  2:{ intros i p Hp%list_elem_of_lookup_2.
      rewrite IH.
      - rewrite length_app. cbn. lia.
      - assert (size (dom child_to_parents ∖ ({[n]} ∪ vs))
                < size (dom child_to_parents ∖ vs))%nat; [| lia].
        apply subset_size. apply elem_of_dom_2 in Hps.
        assert (n ∉ vs) by (intros Hv%Hrank; lia). set_solver.
      - assert (rank p < rank n)%nat
          by (apply (rank_parent _ _ rank_decreases), Hsame, Hp).
        intros v [->%elem_of_singleton|Hv%Hrank]%elem_of_union; lia. }
  rewrite (foldr_max_shift (λ p, lvl p - 1)); [| done | lia |].
  2:{ intros p. pose proof (lvl_positive _ _ rank_decreases p). lia. }
  rewrite Hn.
  rewrite (foldr_max_same_elements lvl (elements (parents parent_map n)) ps).
  2:{ intros p. by rewrite elem_of_elements, Hsame. }
  pose proof (foldr_max_shift (λ p, lvl p - 1) 1 ps Hnil) as Hshift.
  rewrite (list_fmap_ext _ lvl ps) in Hshift by (intros; lia).
  rewrite Hshift; [lia | lia |].
  intros p. pose proof (lvl_positive _ _ rank_decreases p). lia.
Qed.
End one_file.

(** X18.  On an acyclic hierarchy file the two scripts agree: the level
    that [add_skill_levels.py] gives a node is the number of nodes on the
    longest of the paths that [map_skill_hierarchy_paths.py] returns for
    it. *)
Theorem level_is_longest_path iter (rows : list (string * string))
    (rank : string → nat) (skill_id : string) :
  enumerates iter →
  acyclic_by rank (build_parent_map rows) →
  ∃ all_paths,
    paths (load_hierarchy rows) skill_id = Ret all_paths
    ∧ depth iter (build_parent_map rows) skill_id
      = Z.of_nat (max_list_with length all_paths).
Proof.
  intros Hiter Hrank. eexists. split; [apply paths_returns |].
  rewrite (depth_lvl iter _ rank Hiter Hrank), max_list_with_length_Z.
  rewrite (longest_path rows rank Hrank); [cbn; lia | | set_solver].
  rewrite difference_empty_L, size_dom. lia.
Qed.

Lemma level_is_longest_path_witness :
  ∃ all_paths,
    paths (load_hierarchy Scenario.diamond) "D" = Ret all_paths
    ∧ depth Scenario.ascending (build_parent_map Scenario.diamond) "D"
      = Z.of_nat (max_list_with length all_paths).
Proof.
  apply (level_is_longest_path Scenario.ascending Scenario.diamond
           Scenario.diamond_rank "D").
  - by intros k s.
  - refine (bool_decide_unpack _ _). by vm_compute.
Defined.

Lemma follows_edges_rank (child_to_parents : gmap string (list string))
    (rank : string → nat) mid :
  map_Forall (λ a ps, Forall (λ b, (rank b < rank a)%nat) ps) child_to_parents →
  ∀ l, follows_edges child_to_parents (mid ++ [l]) →
       ∀ x, x ∈ mid → (rank l < rank x)%nat.
Proof.
  intros Hrank. induction mid as [|m mid IH]; intros l Hedges x Hx.
  { by apply not_elem_of_nil in Hx. }
  cbn in Hedges. destruct (mid ++ [l]) as [|b rest] eqn:Hrest.
  { by destruct mid. }
  destruct Hedges as [Hedge Hedges]. unfold edge in Hedge.
  destruct (child_to_parents !! m) as [ps|] eqn:Hps; cbn in Hedge;
    [| by apply not_elem_of_nil in Hedge].
  pose proof (Hrank m ps Hps) as Hm. cbn in Hm.
  rewrite Forall_forall in Hm. specialize (Hm b Hedge).
  assert (rank l ≤ rank b)%nat as Hlb.
  { destruct mid as [|m' mid'].
    - cbn in Hrest. by simplify_eq.
    - assert (b = m') as -> by (cbn in Hrest; by simplify_eq).
      apply Nat.lt_le_incl, (IH l); [by rewrite Hrest | left]. }
  apply elem_of_cons in Hx as [->|Hx]; [lia |].
  apply (IH l); [by rewrite Hrest | done].
Qed.

(** X19.  In an acyclic edge index no returned path goes through a node
    twice, and every returned path ends at a node without recorded
    parents. *)
Theorem acyclic_paths_are_simple (child_to_parents : gmap string (list string))
    (rank : string → nat) (skill_id : string) :
  map_Forall (λ a ps, Forall (λ b, (rank b < rank a)%nat) ps) child_to_parents →
  ∃ all_paths,
    paths child_to_parents skill_id = Ret all_paths
    ∧ Forall (λ path,
        NoDup path
        ∧ ∃ l, last path = Some l ∧ no_parents child_to_parents l) all_paths.
Proof.
  intros Hrank. eexists. split; [apply paths_returns |].
  apply Forall_forall.
  intros path (mid & l & -> & _ & Hnodup & Hedges & Hend)%PathsMore.paths_spec_chains.
  pose proof (follows_edges_rank _ _ mid Hrank l Hedges) as Hl.
  assert (l ∉ mid) as Hfresh by (intros Hin%Hl; lia).
  split.
  - apply NoDup_app. split; [done |]. split; [| apply NoDup_singleton].
    intros x Hx ->%list_elem_of_singleton. done.
  - exists l. split; [apply last_snoc |]. by destruct Hend.
Qed.

Lemma acyclic_paths_are_simple_witness :
  ∃ all_paths,
    paths (load_hierarchy Scenario.diamond) "D" = Ret all_paths
    ∧ Forall (λ path,
        NoDup path
        ∧ ∃ l, last path = Some l
               ∧ no_parents (load_hierarchy Scenario.diamond) l) all_paths.
Proof.
  apply (acyclic_paths_are_simple (load_hierarchy Scenario.diamond)
           Scenario.diamond_rank "D").
  refine (bool_decide_unpack _ _). by vm_compute.
Defined.

End LevelsAndPaths.
